(** * Pagination / cache / fetch coordinator of the Pokemon list

    A shallow embedding of

      - [src/helpers/localStorage.ts]   (the cache store helpers),
      - [src/hooks/usePokemonList.ts]   (the list coordinator hook),
      - [src/pages/Home.tsx]            (the page that carries the same
                                         coordinator inline, and what
                                         the page renders),
      - [src/hooks/useInfiniteScroll.ts] (the observer hook),
      - the ids in [src/components/home/PokemonListItem.tsx],
        [src/pages/PokemonDetails.tsx] and [src/services/pokemonApi.ts],

    together with the small part of the JavaScript platform these files
    call: [String.prototype.split], [parseInt], template literals,
    [JSON.stringify], [JSON.parse] and the Web Storage object
    [localStorage].

    Conventions.

      - A JavaScript [number] that the program only ever produces as an
        integer (a length, [Date.now()], an offset, [Math.floor] of a
        quotient) is a [Z]: these stay far below 2^53, where doubles are
        exact, and the arithmetic on them is the arithmetic of [Z].
      - The result of [parseInt] is a [number]: [NaN], an infinity, or the
        integer that the double holds; [parseInt] rounds the integer it
        reads to the nearest double.
      - A JavaScript string is a Rocq [string] (a sequence of bytes, the
        UTF-8 image of the JavaScript string).
      - The state cells have their declared TypeScript types.  A value
        read from the store is read at its declared type
        ([loadPokemonList], [loadPaginationState]); [loadItem] is the
        value before that reading, whatever its type.
      - A React state cell is a record field; an effect or a callback is a
        function from the state (and the store) before it runs to the
        state (and the store) after the updates it queues are applied.
      - [Date.now()] is the explicit argument [now].
      - What [useGetPokemonListQuery] returns in a render ([data], [error],
        [isFetching]) is the explicit argument [q]. *)

From Stdlib Require Import ZArith String Ascii List Bool Lia.
From Stdlib Require Import Decimal DecimalString DecimalZ DecimalFacts DecimalPos.
From stdpp Require Import base option list gmap strings.

Local Open Scope string_scope.
Local Open Scope list_scope.
Local Open Scope Z_scope.

(** ** The JavaScript platform *)

Module JS.

(** What a cell of type [number] holds.  [parseInt] returns [NaN], an
    integer, or an infinity.  [Num 0] stands for both zeros:
    [Set.prototype.has], [===], [JSON.stringify] and a template literal
    do not tell them apart.  [Null] is not a number: it is what
    [JSON.parse] puts in the cell after [JSON.stringify] has written
    [null] for [NaN] or for an infinity, the types being unchecked at run
    time.  Rocq's equality on [number] is the SameValueZero comparison
    that [Set] uses: [NaN] is equal to [NaN]. *)
Inductive number : Set :=
| NaN : number
| Num (z : Z) : number
| Infinity (negative : bool) : number
| Null : number.

(** [Number.isInteger] *)
Definition isInteger (n : number) : bool :=
  match n with
  | Num _ => true
  | _ => false
  end.

(** The number that an integer becomes: the nearest double, the one with
    an even significand when two are as near (53 bits of significand);
    an infinity from 2^1024 on. *)
Definition toNumber (z : Z) : number :=
  let a := Z.abs z in
  let shift := Z.log2 a - 52 in
  if shift <=? 0 then Num z
  else
    let q := Z.shiftr a shift in
    let r := a - Z.shiftl q shift in
    let half := Z.shiftl 1 (shift - 1) in
    let q := if (half <? r) || ((r =? half) && Z.odd q) then q + 1 else q in
    let m := Z.shiftl q shift in
    if 2 ^ 1024 <=? m then Infinity (z <? 0)
    else Num (if z <? 0 then - m else m).

#[global] Instance number_eq_dec : EqDecision number.
Proof. solve_decision. Defined.

(** A completion: the value an expression returns, or an exception. *)
Inductive Completion (A : Type) : Type :=
| Normal (a : A) : Completion A
| Throws : Completion A.
Arguments Normal {A} a.
Arguments Throws {A}.

(** [s.split(sep)] for a one-character separator: the segments between
    the separators, so that the empty string gives one empty segment. *)
Fixpoint split (sep : ascii) (s : string) : list string :=
  match s with
  | EmptyString => [EmptyString]
  | String c rest =>
      if Ascii.eqb c sep then EmptyString :: split sep rest
      else match split sep rest with
           | seg :: segs => String c seg :: segs
           | [] => [String c EmptyString]
           end
  end.

(** [a[i]] for an integer index: [undefined] out of range. *)
Definition index {A : Type} (a : list A) (i : Z) : option A :=
  if i <? 0 then None else a !! Z.to_nat i.

(** [ToString] on [string | undefined]. *)
Definition ToString (v : option string) : string :=
  match v with
  | Some s => s
  | None => "undefined"
  end.

(** White space that [parseInt] strips (StrWhiteSpaceChar): the white
    space and the line terminators of JavaScript.  In the ASCII range
    these are TAB, LF, VT, FF, CR and SP. *)
Definition isStrWhiteSpaceChar (c : ascii) : bool :=
  let n := N_of_ascii c in
  ((9 <=? n) && (n <=? 13))%N || (n =? 32)%N.

(** The others, by their UTF-8 bytes: U+00A0 in two bytes; U+1680,
    U+2000 to U+200A, U+2028, U+2029, U+202F, U+205F, U+3000 and U+FEFF
    in three. *)
Definition isStrWhiteSpace2 (a b : ascii) : bool :=
  (N_of_ascii a =? 194)%N && (N_of_ascii b =? 160)%N.

Definition isStrWhiteSpace3 (a b c : ascii) : bool :=
  let x := N_of_ascii a in
  let y := N_of_ascii b in
  let z := N_of_ascii c in
  ((x =? 225) && (y =? 154) && (z =? 128))%N
  || ((x =? 226) && (y =? 128)
      && (((128 <=? z) && (z <=? 138)) || (z =? 168) || (z =? 169) || (z =? 175)))%N
  || ((x =? 226) && (y =? 129) && (z =? 159))%N
  || ((x =? 227) && (y =? 128) && (z =? 128))%N
  || ((x =? 239) && (y =? 187) && (z =? 191))%N.

Fixpoint trimStart (s : string) : string :=
  match s with
  | EmptyString => EmptyString
  | String a r1 =>
      if isStrWhiteSpaceChar a then trimStart r1
      else
        match r1 with
        | String b r2 =>
            if isStrWhiteSpace2 a b then trimStart r2
            else
              match r2 with
              | String c r3 => if isStrWhiteSpace3 a b c then trimStart r3 else s
              | EmptyString => s
              end
        | EmptyString => s
        end
  end.

(** The value of [c] as a digit of radix [radix] (10 or 16). *)
Definition digitValue (radix : Z) (c : ascii) : option Z :=
  let n := Z.of_N (N_of_ascii c) in
  let v := if (48 <=? n) && (n <=? 57) then Some (n - 48)
           else if (97 <=? n) && (n <=? 122) then Some (n - 87)
           else if (65 <=? n) && (n <=? 90) then Some (n - 55)
           else None in
  match v with
  | Some d => if d <? radix then Some d else None
  | None => None
  end.

(** The longest prefix of radix-[radix] digits, read as an integer;
    [acc] is [None] until a first digit is seen. *)
Fixpoint readDigits (radix : Z) (acc : option Z) (s : string) : option Z :=
  match s with
  | String c rest =>
      match digitValue radix c with
      | Some d => readDigits radix (Some (default 0 acc * radix + d)) rest
      | None => acc
      end
  | EmptyString => acc
  end.

(** An optional sign in front of the digits. *)
Definition stripSign (s : string) : bool * string :=
  match s with
  | String c r =>
      if Ascii.eqb c "-" then (true, r)
      else if Ascii.eqb c "+" then (false, r)
      else (false, s)
  | EmptyString => (false, s)
  end.

(** An optional [0x] or [0X], which selects radix 16. *)
Definition stripHexPrefix (s : string) : Z * string :=
  match s with
  | String c (String x r) =>
      if Ascii.eqb c "0" && (Ascii.eqb x "x" || Ascii.eqb x "X")
      then (16, r)
      else (10, s)
  | _ => (10, s)
  end.

(** [parseInt(string)] without a radix: leading white space, an optional
    sign, an optional [0x]/[0X] prefix, then the longest prefix of digits;
    [NaN] when there is no digit, and else the number that the integer
    read becomes.  (Past the 20th significant digit an implementation
    may read a decimal digit as 0; this one reads them all.) *)
Definition parseInt (input : option string) : number :=
  let s := trimStart (ToString input) in
  let '(neg, s) := stripSign s in
  let '(radix, s) := stripHexPrefix s in
  match readDigits radix None s with
  | Some m => toNumber (if neg : bool then - m else m)
  | None => NaN
  end.

(** Whether the character [c] occurs in [s]. *)
Fixpoint occurs (c : ascii) (s : string) : bool :=
  match s with
  | EmptyString => false
  | String c' rest => Ascii.eqb c' c || occurs c rest
  end.

(** *** JSON

    [JSON.parse] reads a text into a [json] value; a number literal is
    kept as the pair [m], [e] of the integer [m * 10 ^ e] or fraction it
    denotes.  The texts that [JSON.stringify] writes for the values
    this program stores are built from [numberText], [quote],
    [arrayText] and [objectText]. *)
Module JSON.

Local Unset Elimination Schemes.
Inductive json : Type :=
| JNull : json
| JBool (b : bool) : json
| JNum (m e : Z) : json
| JStr (s : string) : json
| JArr (elements : list json) : json
| JObj (props : list (string * json)) : json.
Local Set Elimination Schemes.

Definition dquote : ascii := "034"%char.
Definition backslash : ascii := "092"%char.

(** **** Writing *)

(** The text of an integer: decimal digits, [-] in front of a
    negative one.  This is the form that [JSON.stringify] gives to the
    integers up to 2^53.  Past 2^53 it writes the digits of
    [positiveIntegerToString], from which [JSON.parse] makes the same
    number again; here the text has the digits of the integer, from
    which the reading makes the same integer again. *)
Definition integerText (z : Z) : string :=
  NilZero.string_of_int (Z.to_int z).

(** [JSON.stringify] writes [null] for [NaN], for an infinity and for
    [null]. *)
Definition numberText (n : number) : string :=
  match n with
  | Num z => integerText z
  | NaN | Infinity _ | Null => "null"
  end.

Definition booleanText (b : bool) : string :=
  if b then "true" else "false".

Definition hexDigit (n : N) : ascii :=
  if (n <? 10)%N then ascii_of_N (48 + n) else ascii_of_N (87 + n).

(** The escape of one character inside a JSON string. *)
Definition quoteChar (c : ascii) : string :=
  let n := N_of_ascii c in
  if Ascii.eqb c dquote then String backslash (String dquote EmptyString)
  else if Ascii.eqb c backslash then String backslash (String backslash EmptyString)
  else if (n =? 8)%N then String backslash "b"
  else if (n =? 12)%N then String backslash "f"
  else if (n =? 10)%N then String backslash "n"
  else if (n =? 13)%N then String backslash "r"
  else if (n =? 9)%N then String backslash "t"
  else if (n <? 32)%N then
    String backslash
      (String "u" (String "0" (String "0"
        (String (hexDigit (n / 16)) (String (hexDigit (n mod 16)) EmptyString)))))
  else String c EmptyString.

Fixpoint quoteChars (s : string) : string :=
  match s with
  | EmptyString => EmptyString
  | String c rest => quoteChar c +:+ quoteChars rest
  end.

Definition quote (s : string) : string :=
  String dquote (quoteChars s +:+ String dquote EmptyString).

Fixpoint commaSeparated (texts : list string) : string :=
  match texts with
  | [] => EmptyString
  | [t] => t
  | t :: rest => t +:+ "," +:+ commaSeparated rest
  end.

Definition arrayText (elements : list string) : string :=
  "[" +:+ commaSeparated elements +:+ "]".

Definition objectText (props : list (string * string)) : string :=
  "{" +:+ commaSeparated ((fun kv => quote (fst kv) +:+ ":" +:+ snd kv) <$> props) +:+ "}".

(** **** Reading *)

Definition isWhiteSpace (c : ascii) : bool :=
  let n := N_of_ascii c in
  (n =? 32)%N || (n =? 9)%N || (n =? 10)%N || (n =? 13)%N.

Fixpoint skipWS (s : string) : string :=
  match s with
  | String c rest => if isWhiteSpace c then skipWS rest else s
  | EmptyString => EmptyString
  end.

(** [stripPrefix p s] is what follows [p] in [s]. *)
Fixpoint stripPrefix (p s : string) : option string :=
  match p, s with
  | EmptyString, _ => Some s
  | String a p', String b s' => if Ascii.eqb a b then stripPrefix p' s' else None
  | String _ _, EmptyString => None
  end.

Definition digitCons (c : ascii) : option (uint -> uint) :=
  let n := N_of_ascii c in
  if (n =? 48)%N then Some D0 else if (n =? 49)%N then Some D1
  else if (n =? 50)%N then Some D2 else if (n =? 51)%N then Some D3
  else if (n =? 52)%N then Some D4 else if (n =? 53)%N then Some D5
  else if (n =? 54)%N then Some D6 else if (n =? 55)%N then Some D7
  else if (n =? 56)%N then Some D8 else if (n =? 57)%N then Some D9
  else None.

(** The longest prefix of decimal digits, and what follows it. *)
Fixpoint readUint (s : string) : uint * string :=
  match s with
  | String c rest =>
      match digitCons c with
      | Some d => let '(u, r) := readUint rest in (d u, r)
      | None => (Nil, s)
      end
  | EmptyString => (Nil, EmptyString)
  end.

(** The integer part of a number: one or more digits, no leading zero
    in front of another digit. *)
Definition validIntPart (u : uint) : bool :=
  match u with
  | Nil => false
  | D0 Nil => true
  | D0 _ => false
  | _ => true
  end.

Definition nonEmpty (u : uint) : bool :=
  match u with Nil => false | _ => true end.

Definition readFraction (s : string) : option (uint * string) :=
  match s with
  | String c r =>
      if Ascii.eqb c "." then
        let '(f, r') := readUint r in
        if nonEmpty f then Some (f, r') else None
      else Some (Nil, s)
  | EmptyString => Some (Nil, s)
  end.

Definition readSign (s : string) : bool * string :=
  match s with
  | String c r =>
      if Ascii.eqb c "-" then (true, r)
      else if Ascii.eqb c "+" then (false, r)
      else (false, s)
  | EmptyString => (false, s)
  end.

Definition readExponent (s : string) : option (Z * string) :=
  match s with
  | String c r =>
      if Ascii.eqb c "e" || Ascii.eqb c "E" then
        let '(neg, r1) := readSign r in
        let '(x, r2) := readUint r1 in
        if nonEmpty x
        then Some (if neg : bool then - Z.of_uint x else Z.of_uint x, r2)
        else None
      else Some (0, s)
  | EmptyString => Some (0, s)
  end.

(** What follows the sign of a number literal: int frac? exp?. *)
Definition readMagnitude (neg : bool) (s : string) : option (json * string) :=
  let '(ip, s2) := readUint s in
  if validIntPart ip then
    match readFraction s2 with
    | Some (fp, s3) =>
        match readExponent s3 with
        | Some (x, s4) =>
            let m := Z.of_uint (Decimal.app ip fp) in
            Some (JNum (if neg then - m else m)
                       (x - Z.of_nat (Decimal.nb_digits fp)), s4)
        | None => None
        end
    | None => None
    end
  else None.

(** A number literal: [-]? int frac? exp?. *)
Definition readNumber (s : string) : option (json * string) :=
  match s with
  | String c r => if Ascii.eqb c "-" then readMagnitude true r else readMagnitude false s
  | EmptyString => None
  end.

(** One unit of a string literal: a byte written as it is, or the
    UTF-16 code unit of a [\uXXXX] escape. *)
Inductive unit16 : Set :=
| Raw (c : ascii) : unit16
| Escaped (u : Z) : unit16.

Definition hexValue (c : ascii) : option Z := digitValue 16 c.

Definition simpleEscape (c : ascii) : option ascii :=
  if Ascii.eqb c dquote then Some dquote
  else if Ascii.eqb c backslash then Some backslash
  else if Ascii.eqb c "/" then Some "/"%char
  else if Ascii.eqb c "b" then Some "008"%char
  else if Ascii.eqb c "f" then Some "012"%char
  else if Ascii.eqb c "n" then Some "010"%char
  else if Ascii.eqb c "r" then Some "013"%char
  else if Ascii.eqb c "t" then Some "009"%char
  else None.

(** The units of a string literal up to its closing quote, and what
    follows the quote. *)
Fixpoint readUnits (s : string) : option (list unit16 * string) :=
  match s with
  | EmptyString => None
  | String c r =>
      if Ascii.eqb c dquote then Some ([], r)
      else if Ascii.eqb c backslash then
        match r with
        | String e r1 =>
            if Ascii.eqb e "u" then
              match r1 with
              | String h1 (String h2 (String h3 (String h4 r2))) =>
                  match hexValue h1, hexValue h2, hexValue h3, hexValue h4 with
                  | Some a, Some b, Some c', Some d =>
                      match readUnits r2 with
                      | Some (us, r3) =>
                          Some (Escaped (((a * 16 + b) * 16 + c') * 16 + d) :: us, r3)
                      | None => None
                      end
                  | _, _, _, _ => None
                  end
              | _ => None
              end
            else
              match simpleEscape e with
              | Some c' =>
                  match readUnits r1 with
                  | Some (us, r3) => Some (Raw c' :: us, r3)
                  | None => None
                  end
              | None => None
              end
        | EmptyString => None
        end
      else if (N_of_ascii c <? 32)%N then None
      else
        match readUnits r with
        | Some (us, r3) => Some (Raw c :: us, r3)
        | None => None
        end
  end.

Definition byte (z : Z) : ascii := ascii_of_N (Z.to_N z).

(** The UTF-8 bytes of a code point. *)
Definition utf8 (cp : Z) : string :=
  if cp <? 128 then String (byte cp) EmptyString
  else if cp <? 2048 then
    String (byte (192 + cp / 64)) (String (byte (128 + cp mod 64)) EmptyString)
  else if cp <? 65536 then
    String (byte (224 + cp / 4096))
      (String (byte (128 + (cp / 64) mod 64))
        (String (byte (128 + cp mod 64)) EmptyString))
  else
    String (byte (240 + cp / 262144))
      (String (byte (128 + (cp / 4096) mod 64))
        (String (byte (128 + (cp / 64) mod 64))
          (String (byte (128 + cp mod 64)) EmptyString))).

Definition isHighSurrogate (u : Z) : bool := (55296 <=? u) && (u <=? 56319).
Definition isLowSurrogate (u : Z) : bool := (56320 <=? u) && (u <=? 57343).

(** The bytes of a sequence of units; a surrogate pair is one code
    point. *)
Fixpoint unitsToString (us : list unit16) : string :=
  match us with
  | [] => EmptyString
  | Raw c :: rest => String c (unitsToString rest)
  | Escaped hi :: rest =>
      match rest with
      | Escaped lo :: rest' =>
          if isHighSurrogate hi && isLowSurrogate lo
          then utf8 (65536 + (hi - 55296) * 1024 + (lo - 56320)) +:+ unitsToString rest'
          else utf8 hi +:+ unitsToString rest
      | _ => utf8 hi +:+ unitsToString rest
      end
  end.

(** A string literal after its opening quote. *)
Definition readString (s : string) : option (string * string) :=
  match readUnits s with
  | Some (us, r) => Some (unitsToString us, r)
  | None => None
  end.

(** A value, the elements of an array after its first bracket, the
    members of an object after its first brace.  [fuel] bounds the
    chain of calls; of two calls in a row at least one has read a
    character, so twice the length of the text is enough. *)
Fixpoint readValue (fuel : nat) (s : string) : option (json * string) :=
  match fuel with
  | O => None
  | S fuel =>
      match s with
      | EmptyString => None
      | String c r =>
          if Ascii.eqb c "n" then
            match stripPrefix "ull" r with
            | Some r' => Some (JNull, r') | None => None end
          else if Ascii.eqb c "t" then
            match stripPrefix "rue" r with
            | Some r' => Some (JBool true, r') | None => None end
          else if Ascii.eqb c "f" then
            match stripPrefix "alse" r with
            | Some r' => Some (JBool false, r') | None => None end
          else if Ascii.eqb c dquote then
            match readString r with
            | Some (str, r') => Some (JStr str, r') | None => None end
          else if Ascii.eqb c "[" then
            match skipWS r with
            | String c' r' =>
                if Ascii.eqb c' "]" then Some (JArr [], r')
                else
                  match readElements fuel (String c' r') with
                  | Some (l, r'') => Some (JArr l, r'') | None => None end
            | EmptyString => None
            end
          else if Ascii.eqb c "{" then
            match skipWS r with
            | String c' r' =>
                if Ascii.eqb c' "}" then Some (JObj [], r')
                else
                  match readMembers fuel (String c' r') with
                  | Some (l, r'') => Some (JObj l, r'') | None => None end
            | EmptyString => None
            end
          else readNumber s
      end
  end
with readElements (fuel : nat) (s : string) : option (list json * string) :=
  match fuel with
  | O => None
  | S fuel =>
      match readValue fuel s with
      | Some (v, r) =>
          match skipWS r with
          | String c r' =>
              if Ascii.eqb c "," then
                match readElements fuel (skipWS r') with
                | Some (l, r'') => Some (v :: l, r'') | None => None end
              else if Ascii.eqb c "]" then Some ([v], r')
              else None
          | EmptyString => None
          end
      | None => None
      end
  end
with readMembers (fuel : nat) (s : string) : option (list (string * json) * string) :=
  match fuel with
  | O => None
  | S fuel =>
      match s with
      | String q r =>
          if Ascii.eqb q dquote then
            match readString r with
            | Some (key, r1) =>
                match skipWS r1 with
                | String colon r2 =>
                    if Ascii.eqb colon ":" then
                      match readValue fuel (skipWS r2) with
                      | Some (v, r3) =>
                          match skipWS r3 with
                          | String c r4 =>
                              if Ascii.eqb c "," then
                                match readMembers fuel (skipWS r4) with
                                | Some (l, r5) => Some ((key, v) :: l, r5)
                                | None => None
                                end
                              else if Ascii.eqb c "}" then Some ([(key, v)], r4)
                              else None
                          | EmptyString => None
                          end
                      | None => None
                      end
                    else None
                | EmptyString => None
                end
            | None => None
            end
          else None
      | EmptyString => None
      end
  end.

(** [JSON.parse(text)]: one value between optional white space; a
    [SyntaxError] otherwise. *)
Definition parse (text : string) : Completion json :=
  match readValue (2 * String.length text + 2) (skipWS text) with
  | Some (v, r) =>
      match skipWS r with
      | EmptyString => Normal v
      | String _ _ => Throws
      end
  | None => Throws
  end.

(** [o[k]] on a parsed object: of two members with one key the later
    one is the property. *)
Fixpoint getProp (k : string) (props : list (string * json)) : option json :=
  match props with
  | [] => None
  | (k', v) :: rest =>
      match getProp k rest with
      | Some v' => Some v'
      | None => if String.eqb k k' then Some v else None
      end
  end.

(** The integer that [m * 10 ^ e] is, if it is one. *)
Definition integerValue (m e : Z) : option Z :=
  if 0 <=? e then Some (m * 10 ^ e)
  else if m mod 10 ^ (- e) =? 0 then Some (m / 10 ^ (- e))
  else None.

(** **** Classes of characters and keys

    A character that starts a number literal; a character that ends
    the digits of an integer inside an object; a key that
    [JSON.stringify] writes as it is, between quotes. *)
Definition numberStart (c : ascii) : bool :=
  match digitCons c with Some _ => true | None => Ascii.eqb c "-" end.

Definition delimiter (c : ascii) : bool :=
  Ascii.eqb c "," || Ascii.eqb c "}".

Definition plainChar (c : ascii) : bool :=
  negb (Ascii.eqb c dquote) && negb (Ascii.eqb c backslash)
  && negb (N_of_ascii c <? 32)%N.

Fixpoint plain (k : string) : bool :=
  match k with
  | EmptyString => true
  | String c k' => plainChar c && plain k'
  end.

(** **** [Number::toString] on an integer

    Of the decimals [s * 10 ^ p] that become the number [x], the text
    shows one with the fewest digits [s], and of these the nearest to
    [x] (the even one of two as near).  [shortestFrom] tries the
    exponents [p] from the highest down; at [p = 0] the decimal is [x]
    itself. *)
Fixpoint shortestFrom (fuel : nat) (x p : Z) : Z * Z :=
  match fuel with
  | O => (x, 0)
  | S fuel =>
      let lo := x / 10 ^ p in
      let hi := lo + 1 in
      let okLo := bool_decide (toNumber (lo * 10 ^ p) = Num x) in
      let okHi := bool_decide (toNumber (hi * 10 ^ p) = Num x) in
      if okLo && okHi then
        let below := x - lo * 10 ^ p in
        let above := hi * 10 ^ p - x in
        if below <? above then (lo, p)
        else if above <? below then (hi, p)
        else if Z.even lo then (lo, p) else (hi, p)
      else if okLo then (lo, p)
      else if okHi then (hi, p)
      else shortestFrom fuel x (p - 1)
  end.

(** [s] without its final zeros. *)
Fixpoint stripZeros (fuel : nat) (s p : Z) : Z * Z :=
  match fuel with
  | O => (s, p)
  | S fuel =>
      if (s mod 10 =? 0) && negb (s =? 0) then stripZeros fuel (s / 10) (p + 1)
      else (s, p)
  end.

Definition shortestDecimal (x : Z) : Z * Z :=
  let d := String.length (integerText x) in
  let '(s, p) := shortestFrom d x (Z.of_nat d - 1) in
  stripZeros d s p.

(** The text of a positive integer [x]: up to 2^53 its digits; past
    that the digits [s] and then [p] zeros while these are 21 digits at
    most, and else the first digit of [s], a point and its other digits if
    it has any, and the exponent. *)
Definition positiveIntegerToString (x : Z) : string :=
  if x <? 2 ^ 53 then integerText x
  else
    let '(s, p) := shortestDecimal x in
    if s * 10 ^ p <? 10 ^ 21 then integerText (s * 10 ^ p)
    else
      let exponent := "e+" +:+ integerText (p + Z.of_nat (String.length (integerText s)) - 1) in
      match integerText s with
      | String d EmptyString => String d exponent
      | String d rest => String d (String "." (rest +:+ exponent))
      | EmptyString => exponent
      end.

End JSON.
End JS.

(** ** The Web Storage object [localStorage]

    A key-value map of strings.  Two things make its methods throw: the
    storage is not accessible to the page at all (every access throws), or
    a write would take the stored keys and values past the quota
    ([setItem] throws and stores nothing). *)

Module WebStorage.
Import JS.

Record Storage : Type := {
  items : gmap string string;
  quota : nat;
  accessible : bool;
}.

(** The size of what is stored: the characters of all keys and values. *)
Definition used (m : gmap string string) : nat :=
  map_fold (fun k v n => (String.length k + String.length v + n)%nat) 0%nat m.

Definition getItem (k : string) (st : Storage) : Completion (option string) :=
  if accessible st then Normal (items st !! k) else Throws.

Definition setItem (k v : string) (st : Storage) : Completion Storage :=
  if accessible st then
    let m := <[k := v]> (items st) in
    if (used m <=? quota st)%nat
    then Normal {| items := m; quota := quota st; accessible := true |}
    else Throws
  else Throws.

Definition removeItem (k : string) (st : Storage) : Completion Storage :=
  if accessible st
  then Normal {| items := delete k (items st); quota := quota st; accessible := true |}
  else Throws.

(** The store takes the write of [v] under [k]: it is accessible and
    the write stays within the quota. *)
Definition accepts (st : Storage) (k v : string) : Prop :=
  accessible st = true ∧ (used (<[k := v]> (items st)) ≤ quota st)%nat.

(** An accessible store with nothing in it. *)
Definition empty (q : nat) : Storage :=
  {| items := ∅; quota := q; accessible := true |}.

End WebStorage.

(** ** [src/helpers/localStorage.ts] *)

Module LocalStorage.
Import JS JS.JSON WebStorage.

Definition POKEMON_KEY : string := "pokemons".
Definition POKEMON_PAGINATION_KEY : string := "pokemon_pagination".

Record CachedPokemon : Type := {
  id : number;
  name : string;
}.

Record PaginationState : Type := {
  currentPage : Z;
  totalLoaded : Z;
  hasMore : bool;
  lastFetchTime : Z;
}.

(** [JSON.stringify] of a [CachedPokemon[]]. *)
Definition pokemonText (p : CachedPokemon) : string :=
  objectText [("id", numberText (id p)); ("name", quote (name p))].

Definition pokemonListText (l : list CachedPokemon) : string :=
  arrayText (pokemonText <$> l).

(** [JSON.stringify] of a [PaginationState]; the properties come in the
    order in which the program's object literals list them. *)
Definition paginationStateText (s : PaginationState) : string :=
  objectText [("currentPage", integerText (currentPage s));
              ("totalLoaded", integerText (totalLoaded s));
              ("hasMore", booleanText (hasMore s));
              ("lastFetchTime", integerText (lastFetchTime s))].

(** What a load helper does under either key: [getItem], then
    [JSON.parse].  The result is [undefined] ([None]) when there is no
    entry, when the text is not JSON and when the store throws; else it
    is the parsed value, whatever its type. *)
Definition loadItem (key : string) (st : Storage) : option json :=
  match getItem key st with
  | Normal None => None
  | Normal (Some data) =>
      match parse data with
      | Normal v => Some v
      | Throws => None
      end
  | Throws => None
  end.

(** The load helpers return that value under the declared type, without
    a check, and the state cells of the hook have the declared types.
    The embedding reads the parsed value at its declared type
    ([asPokemonList], [asPaginationState]), with [null] admitted for an
    id; every value that the two save helpers store has such a reading.
    A value of another type cannot be put in a state cell here;
    [loadPokemonList] and [loadPaginationState] give [None] for it, as for
    [undefined], and the properties that depend on the difference are
    stated with [loadItem]. *)
Definition asInteger (v : option json) : option Z :=
  match v with
  | Some (JNum m e) => integerValue m e
  | _ => None
  end.

Definition asBoolean (v : option json) : option bool :=
  match v with
  | Some (JBool b) => Some b
  | _ => None
  end.

Definition asString (v : option json) : option string :=
  match v with
  | Some (JStr s) => Some s
  | _ => None
  end.

(** The [id] of a cached item: an integer, or the [null] that
    [savePokemonList] leaves for an id that is [NaN] or an infinity. *)
Definition asId (v : option json) : option number :=
  match v with
  | Some JNull => Some Null
  | _ => Num <$> asInteger v
  end.

Definition asCachedPokemon (v : json) : option CachedPokemon :=
  match v with
  | JObj props =>
      match asId (getProp "id" props), asString (getProp "name" props) with
      | Some i, Some n => Some {| id := i; name := n |}
      | _, _ => None
      end
  | _ => None
  end.

Definition asPokemonList (v : json) : option (list CachedPokemon) :=
  match v with
  | JArr elements => mapM asCachedPokemon elements
  | _ => None
  end.

Definition asPaginationState (v : json) : option PaginationState :=
  match v with
  | JObj props =>
      match asInteger (getProp "currentPage" props),
            asInteger (getProp "totalLoaded" props),
            asBoolean (getProp "hasMore" props),
            asInteger (getProp "lastFetchTime" props) with
      | Some cp, Some tl, Some hm, Some lft =>
          Some {| currentPage := cp; totalLoaded := tl;
                  hasMore := hm; lastFetchTime := lft |}
      | _, _, _, _ => None
      end
  | _ => None
  end.

(** [loadPokemonList] at its declared type [CachedPokemon[] | undefined]. *)
Definition loadPokemonList (st : Storage) : option (list CachedPokemon) :=
  loadItem POKEMON_KEY st ≫= asPokemonList.

(** A failed write is logged and swallowed: the store is as before. *)
Definition savePokemonList (pokemonList : list CachedPokemon) (st : Storage) : Storage :=
  let data := pokemonListText pokemonList in
  match setItem POKEMON_KEY data st with
  | Normal st' => st'
  | Throws => st
  end.

(** [loadPaginationState] at its declared type
    [PaginationState | undefined]. *)
Definition loadPaginationState (st : Storage) : option PaginationState :=
  loadItem POKEMON_PAGINATION_KEY st ≫= asPaginationState.

Definition savePaginationState (state : PaginationState) (st : Storage) : Storage :=
  let data := paginationStateText state in
  match setItem POKEMON_PAGINATION_KEY data st with
  | Normal st' => st'
  | Throws => st
  end.

Definition clearPokemonData (st : Storage) : Storage :=
  match removeItem POKEMON_KEY st with
  | Normal st1 =>
      match removeItem POKEMON_PAGINATION_KEY st1 with
      | Normal st2 => st2
      | Throws => st1
      end
  | Throws => st
  end.

End LocalStorage.

(** ** [src/types/api.ts] *)

Module Api.

(** Modelled from the spec: the declarations of [src/types/api.ts], which
    is not among the sources.  A result page is an ordered sequence of
    named resource references ([name], [url]) with a [next] cursor (a URL
    or [null]) and a [count]. *)
Record NamedAPIResource : Type := {
  name : string;
  url : string;
}.

Record PokemonListResponse : Type := {
  count : Z;
  next : option string;
  previous : option string;
  results : list NamedAPIResource;
}.

End Api.

(** ** [src/hooks/usePokemonList.ts] *)

Module UsePokemonList.
Import JS WebStorage LocalStorage.

Definition ITEMS_PER_PAGE : Z := 20.
Definition CACHE_DURATION : Z := 5 * 60 * 1000.

(** The seven [useState] cells of the hook. *)
Record State : Type := {
  allPokemon : list CachedPokemon;
  paginationState : PaginationState;
  currentOffset : Z;
  skipQuery : bool;
  isInitialLoading : bool;
  error : option string;
  isLoadingMore : bool;
}.

(** The initial values given to [useState]. *)
Definition initialState : State := {|
  allPokemon := [];
  paginationState := {| currentPage := 0; totalLoaded := 0;
                        hasMore := true; lastFetchTime := 0 |};
  currentOffset := 0;
  skipQuery := true;
  isInitialLoading := true;
  error := None;
  isLoadingMore := false;
|}.

(** The setters that [useState] returns. *)
Definition setAllPokemon (v : list CachedPokemon) (s : State) : State :=
  {| allPokemon := v; paginationState := paginationState s;
     currentOffset := currentOffset s; skipQuery := skipQuery s;
     isInitialLoading := isInitialLoading s; error := error s;
     isLoadingMore := isLoadingMore s |}.

Definition setPaginationState (v : PaginationState) (s : State) : State :=
  {| allPokemon := allPokemon s; paginationState := v;
     currentOffset := currentOffset s; skipQuery := skipQuery s;
     isInitialLoading := isInitialLoading s; error := error s;
     isLoadingMore := isLoadingMore s |}.

Definition setCurrentOffset (v : Z) (s : State) : State :=
  {| allPokemon := allPokemon s; paginationState := paginationState s;
     currentOffset := v; skipQuery := skipQuery s;
     isInitialLoading := isInitialLoading s; error := error s;
     isLoadingMore := isLoadingMore s |}.

Definition setSkipQuery (v : bool) (s : State) : State :=
  {| allPokemon := allPokemon s; paginationState := paginationState s;
     currentOffset := currentOffset s; skipQuery := v;
     isInitialLoading := isInitialLoading s; error := error s;
     isLoadingMore := isLoadingMore s |}.

Definition setIsInitialLoading (v : bool) (s : State) : State :=
  {| allPokemon := allPokemon s; paginationState := paginationState s;
     currentOffset := currentOffset s; skipQuery := skipQuery s;
     isInitialLoading := v; error := error s;
     isLoadingMore := isLoadingMore s |}.

Definition setError (v : option string) (s : State) : State :=
  {| allPokemon := allPokemon s; paginationState := paginationState s;
     currentOffset := currentOffset s; skipQuery := skipQuery s;
     isInitialLoading := isInitialLoading s; error := v;
     isLoadingMore := isLoadingMore s |}.

Definition setIsLoadingMore (v : bool) (s : State) : State :=
  {| allPokemon := allPokemon s; paginationState := paginationState s;
     currentOffset := currentOffset s; skipQuery := skipQuery s;
     isInitialLoading := isInitialLoading s; error := error s;
     isLoadingMore := v |}.

(** What [useGetPokemonListQuery] hands to a render: the last page
    received, whether the query is in error, whether a request is in
    flight. *)
Record Query : Type := {
  data : option Api.PokemonListResponse;
  queryError : bool;
  isFetching : bool;
}.

(** The arguments and the [skip] option that a render passes to
    [useGetPokemonListQuery]; no request is made while [skip] is set. *)
Definition queryArgs (s : State) : Z * Z := (currentOffset s, ITEMS_PER_PAGE).
Definition querySkip (s : State) : bool := skipQuery s.

(** The coordinator and the store it writes to. *)
Definition World : Type := State * Storage.

(** The effect "Load cached data on mount".  The two cached values are
    read at their declared types, of which every value is truthy (an
    array, an object); a load that returns [undefined] gives [None]. *)
Definition mountEffect (now : Z) (w : World) : World :=
  let '(s, st) := w in
  let cachedPokemon := loadPokemonList st in
  let cachedPagination := loadPaginationState st in
  let fresh (s : State) :=
    setIsInitialLoading false (setSkipQuery false (setCurrentOffset 0 s)) in
  match cachedPokemon, cachedPagination with
  | Some cachedPokemon, Some cachedPagination =>
      let isCacheValid := now - lastFetchTime cachedPagination <? CACHE_DURATION in
      if isCacheValid then
        let s := setAllPokemon cachedPokemon s in
        let s := setPaginationState cachedPagination s in
        let restoredOffset := currentPage cachedPagination * ITEMS_PER_PAGE in
        let s := setCurrentOffset restoredOffset s in
        let s := setIsInitialLoading false s in
        (s, st)
      else
        (fresh s, clearPokemonData st)
  | _, _ => (fresh s, st)
  end.

(** The callback of [results.map]: the id is [parseInt] of the
    second-to-last part of the url split at [/]. *)
Definition toCachedPokemon (result : Api.NamedAPIResource) : CachedPokemon :=
  let urlParts := split "/" (Api.url result) in
  let id := parseInt (index urlParts (Z.of_nat (length urlParts) - 2)) in
  {| id := id; name := Api.name result |}.

#[global] Instance number_countable : Countable number :=
  inj_countable'
    (fun n => match n with
              | NaN => inl None
              | Num z => inl (Some z)
              | Infinity b => inr (Some b)
              | Null => inr None
              end)
    (fun o => match o with
              | inl None => NaN
              | inl (Some z) => Num z
              | inr (Some b) => Infinity b
              | inr None => Null
              end)
    (fun n => match n with
              | NaN => eq_refl
              | Num _ => eq_refl
              | Infinity _ => eq_refl
              | Null => eq_refl
              end).

(** The effect "Handle query result". *)
Definition queryResultEffect (q : Query) (now : Z) (w : World) : World :=
  let '(s, st) := w in
  match data q with
  | Some pokemonListData =>
      if negb (isFetching q) && negb (queryError q) then
        let newPokemon := toCachedPokemon <$> Api.results pokemonListData in
        let '(s, st) :=
          if currentOffset s =? 0 then
            let newPaginationState :=
              {| currentPage := 0;
                 totalLoaded := Z.of_nat (length newPokemon);
                 hasMore := bool_decide (Api.next pokemonListData ≠ None);
                 lastFetchTime := now |} in
            let s := setAllPokemon newPokemon s in
            let s := setPaginationState newPaginationState s in
            let st := savePokemonList newPokemon st in
            let st := savePaginationState newPaginationState st in
            (s, st)
          else
            let prev := allPokemon s in
            let existingIds : gset number := list_to_set (id <$> prev) in
            let uniqueNewPokemon :=
              filter (fun p => id p ∉ existingIds) newPokemon in
            let updatedList := prev ++ uniqueNewPokemon in
            let st := savePokemonList updatedList st in
            let newPaginationState :=
              {| currentPage := currentOffset s / ITEMS_PER_PAGE;
                 totalLoaded :=
                   Z.of_nat (length prev) + Z.of_nat (length uniqueNewPokemon);
                 hasMore := bool_decide (Api.next pokemonListData ≠ None);
                 lastFetchTime := now |} in
            let s := setPaginationState newPaginationState s in
            let st := savePaginationState newPaginationState st in
            (setAllPokemon updatedList s, st) in
        let s := setSkipQuery true s in
        let s := setError None s in
        let s := setIsLoadingMore false s in
        (s, st)
      else (s, st)
  | None => (s, st)
  end.

(** The effect "Handle query errors". *)
Definition queryErrorEffect (q : Query) (s : State) : State :=
  if queryError q then
    let s := setError (Some "Failed to fetch Pokemon data") s in
    let s := setSkipQuery true s in
    let s := setIsLoadingMore false s in
    s
  else s.

(** The body of [loadMoreData]: the guard reads the values of the render
    that made the callback ([seen]); the updates go to the state they
    are queued on ([s]). *)
Definition loadMoreBody (q : Query) (seen s : State) : State :=
  if negb (isFetching q)
     && negb (isLoadingMore seen)
     && hasMore (paginationState seen)
     && skipQuery seen
     && negb (isInitialLoading seen)
  then
    let s := setIsLoadingMore true s in
    let nextOffset := currentOffset seen + ITEMS_PER_PAGE in
    let s := setCurrentOffset nextOffset s in
    let s := setSkipQuery false s in
    s
  else s.

Definition loadMoreData (q : Query) (s : State) : State :=
  loadMoreBody q s s.

Definition handleRefresh (w : World) : World :=
  let '(s, st) := w in
  let st := clearPokemonData st in
  let s := setAllPokemon [] s in
  let s := setPaginationState
             {| currentPage := 0; totalLoaded := 0;
                hasMore := true; lastFetchTime := 0 |} s in
  let s := setError None s in
  let s := setCurrentOffset 0 s in
  let s := setSkipQuery false s in
  let s := setIsLoadingMore false s in
  (s, st).

(** [setError(null); loadMoreData()]: the call runs the callback of the
    same render. *)
Definition handleRetryLoadMore (q : Query) (s : State) : State :=
  let s' := setError None s in
  loadMoreBody q s s'.

End UsePokemonList.

(** ** [src/pages/Home.tsx]

    The page declares the same seven state cells and the same mount
    effect, error effect, [loadMoreData], [handleRefresh] and
    [handleRetryLoadMore], statement for statement; they are the
    definitions of [UsePokemonList].  Its "Handle query result" effect is
    its own: above offset 0 it computes the pagination state outside the
    updater of the list, from the list of the render and the whole page.
    The updater passed to [setAllPokemon] is run where it is written. *)

Module Home.
Import JS WebStorage LocalStorage UsePokemonList.

Definition queryResultEffect (q : Query) (now : Z) (w : World) : World :=
  let '(s, st) := w in
  match data q with
  | Some pokemonListData =>
      if negb (isFetching q) && negb (queryError q) then
        let newPokemon := toCachedPokemon <$> Api.results pokemonListData in
        let '(s', st) :=
          if currentOffset s =? 0 then
            let s' := setAllPokemon newPokemon s in
            let newPaginationState :=
              {| currentPage := 0;
                 totalLoaded := Z.of_nat (length newPokemon);
                 hasMore := bool_decide (Api.next pokemonListData ≠ None);
                 lastFetchTime := now |} in
            let s' := setPaginationState newPaginationState s' in
            let st := savePokemonList newPokemon st in
            let st := savePaginationState newPaginationState st in
            (s', st)
          else
            let prev := allPokemon s in
            let existingIds : gset number := list_to_set (id <$> prev) in
            let uniqueNewPokemon :=
              filter (fun p => id p ∉ existingIds) newPokemon in
            let updatedList := prev ++ uniqueNewPokemon in
            let st := savePokemonList updatedList st in
            let s' := setAllPokemon updatedList s in
            let newPaginationState :=
              {| currentPage := currentOffset s / ITEMS_PER_PAGE;
                 totalLoaded :=
                   Z.of_nat (length (allPokemon s)) + Z.of_nat (length newPokemon);
                 hasMore := bool_decide (Api.next pokemonListData ≠ None);
                 lastFetchTime := now |} in
            let s' := setPaginationState newPaginationState s' in
            let st := savePaginationState newPaginationState st in
            (s', st) in
        let s' := setSkipQuery true s' in
        let s' := setError None s' in
        let s' := setIsLoadingMore false s' in
        (s', st)
      else (s, st)
  | None => (s, st)
  end.

End Home.

(** ** Fetches and their settlement *)

Module Coordinator.
Import JS WebStorage LocalStorage UsePokemonList.

(** The query of a render in which a fetch has settled with success. *)
Definition settled (page : Api.PokemonListResponse) : Query :=
  {| data := Some page; queryError := false; isFetching := false |}.

(** The query of a render in which a fetch has failed. *)
Definition failed (lastPage : option Api.PokemonListResponse) (fetching : bool) : Query :=
  {| data := lastPage; queryError := true; isFetching := fetching |}.

(** A successful fetch: the offset it was made at, the page it brought
    and the time at which it settles. *)
Record Fetch : Type := {
  offset : Z;
  page : Api.PokemonListResponse;
  time : Z;
}.

(** The ids of a list, and the ids that a page parses to. *)
Definition ids (l : list CachedPokemon) : list number := id <$> l.

Definition pageItems (p : Api.PokemonListResponse) : list CachedPokemon :=
  toCachedPokemon <$> Api.results p.

(** The items of a page whose id the accumulated list does not hold. *)
Definition unseen (prev new : list CachedPokemon) : list CachedPokemon :=
  filter (fun x => id x ∉ ids prev) new.

(** The settlement of a fetch, by a "Handle query result" effect, in a
    coordinator whose offset is the offset of the fetch. *)
Definition merge (effect : Query -> Z -> World -> World) (w : World) (f : Fetch) : World :=
  effect (settled (page f)) (time f) (setCurrentOffset (offset f) w.1, w.2).

(** A replacement at offset 0 followed by merges. *)
Definition mergeAll (effect : Query -> Z -> World -> World)
    (w : World) (first : Fetch) (rest : list Fetch) : World :=
  foldl (merge effect) (merge effect w first) rest.

(** What the two "Handle query result" effects do to the list: a
    replacement at offset 0, the unseen items appended otherwise. *)
Definition merges_like_the_hook (effect : Query -> Z -> World -> World) : Prop :=
  forall p now s st,
    allPokemon (effect (settled p) now (s, st)).1
    = if currentOffset s =? 0 then pageItems p
      else allPokemon s ++ unseen (allPokemon s) (pageItems p).

(** The state in which the mount effect leaves a coordinator that has
    no fresh cache. *)
Definition freshStart : State :=
  {| allPokemon := [];
     paginationState := {| currentPage := 0; totalLoaded := 0;
                           hasMore := true; lastFetchTime := 0 |};
     currentOffset := 0; skipQuery := false; isInitialLoading := false;
     error := None; isLoadingMore := false |}.

End Coordinator.

(** ** Sample data *)

Module Samples.
Import JS WebStorage LocalStorage UsePokemonList Coordinator.

Definition resource (n url : string) : Api.NamedAPIResource :=
  {| Api.name := n; Api.url := url |}.

Definition bulbasaur := resource "bulbasaur" "https://pokeapi.co/api/v2/pokemon/1/".
Definition ivysaur := resource "ivysaur" "https://pokeapi.co/api/v2/pokemon/2/".
Definition venusaur := resource "venusaur" "https://pokeapi.co/api/v2/pokemon/3/".
Definition bulbasaur_again := resource "bulbasaur-again" "https://pokeapi.co/api/v2/pokemon/1/".

Definition pageOf (next : option string) (rs : list Api.NamedAPIResource)
  : Api.PokemonListResponse :=
  {| Api.count := 1302; Api.next := next; Api.previous := None; Api.results := rs |}.

Definition nextUrl : option string :=
  Some "https://pokeapi.co/api/v2/pokemon/?offset=20&limit=20".

(** A first page, a page that overlaps it, a page with one id twice. *)
Definition firstPage := pageOf nextUrl [bulbasaur; ivysaur].
Definition overlappingPage := pageOf nextUrl [ivysaur; venusaur].
Definition twinPage := pageOf nextUrl [bulbasaur; bulbasaur_again].

Definition cached (i : Z) (n : string) : CachedPokemon := {| id := Num i; name := n |}.

(** A store with room, and a store that takes no write. *)
Definition roomy : Storage := WebStorage.empty 4096.
Definition full : Storage := WebStorage.empty 0.

(** The cache that the first page leaves, written at time 1000. *)
Definition firstPageState : PaginationState :=
  {| currentPage := 0; totalLoaded := 2; hasMore := true; lastFetchTime := 1000 |}.

Definition firstPageCache : Storage :=
  savePaginationState firstPageState
    (savePokemonList [cached 1 "bulbasaur"; cached 2 "ivysaur"] roomy).

(** The pagination state after a second page, written at time 2000000. *)
Definition secondPageState : PaginationState :=
  {| currentPage := 1; totalLoaded := 40; hasMore := true; lastFetchTime := 2000000 |}.

(** A store whose quota is just what the first pagination state takes,
    and that holds it. *)
Definition tightCache : Storage :=
  savePaginationState firstPageState
    (WebStorage.empty
       (used (<[POKEMON_PAGINATION_KEY := paginationStateText firstPageState]> ∅))).

(** A store that the page may not access. *)
Definition blocked : Storage := {| items := ∅; quota := 4096; accessible := false |}.

(** A store that holds a pagination state and no list. *)
Definition orphanCache : Storage := savePaginationState firstPageState roomy.

(** A coordinator that has loaded the first page and asks for the
    second. *)
Definition afterFirstPage : State :=
  {| allPokemon := [cached 1 "bulbasaur"; cached 2 "ivysaur"];
     paginationState := {| currentPage := 0; totalLoaded := 2;
                           hasMore := true; lastFetchTime := 1000 |};
     currentOffset := 20;
     skipQuery := false;
     isInitialLoading := false;
     error := None;
     isLoadingMore := true |}.

End Samples.

(** ** What [JSON.parse] gives for a cached item *)

Module Parsed.
Import JS JS.JSON LocalStorage.

(** The value of the text that [JSON.stringify] writes for an id. *)
Definition idJson (i : number) : json :=
  match i with
  | Num z => JNum z 0
  | _ => JNull
  end.

(** The value of the text that [JSON.stringify] writes for a cached
    item. *)
Definition pokemonJson (p : CachedPokemon) : json :=
  JObj [("id", idJson (id p)); ("name", JStr (name p))].

(** A cached item as it comes back from the store: with the id [null]
    when its id was [NaN] or an infinity. *)
Definition stored (p : CachedPokemon) : CachedPokemon :=
  {| id := match id p with Num z => Num z | _ => Null end; name := name p |}.

End Parsed.

(** ** A mounted coordinator and what happens to it

    After the mount effect, the state changes when one of the two query
    effects runs or when the page calls one of the three callbacks. *)

Module Session.
Import JS WebStorage LocalStorage UsePokemonList.

Inductive Event : Type :=
| QueryResult (q : Query) (now : Z) : Event
| QueryErrored (q : Query) : Event
| LoadMore (q : Query) : Event
| Refresh : Event
| RetryLoadMore (q : Query) : Event.

Definition step (effect : Query -> Z -> World -> World) (w : World) (e : Event) : World :=
  match e with
  | QueryResult q now => effect q now w
  | QueryErrored q => (queryErrorEffect q w.1, w.2)
  | LoadMore q => (loadMoreData q w.1, w.2)
  | Refresh => handleRefresh w
  | RetryLoadMore q => (handleRetryLoadMore q w.1, w.2)
  end.

Definition run (effect : Query -> Z -> World -> World) (w : World) (es : list Event) : World :=
  foldl (step effect) w es.

(** The page that an event delivers, when it is the settlement of a
    successful fetch. *)
Definition delivered (e : Event) : option Api.PokemonListResponse :=
  match e with
  | QueryResult q _ =>
      if negb (isFetching q) && negb (queryError q) then data q else None
  | _ => None
  end.

(** The offset is a multiple of the page size, from 0 on. *)
Definition aligned (s : State) : Prop :=
  0 ≤ currentOffset s ∧ (ITEMS_PER_PAGE | currentOffset s).

(** [totalLoaded] counts the accumulated list. *)
Definition counted (s : State) : Prop :=
  totalLoaded (paginationState s) = Z.of_nat (length (allPokemon s)).

(** What a cache must satisfy for the hydrated state to be [aligned] and
    [counted]: when both loads return a value, the two values are of
    their declared types, the page number is from 0 to 2^32, and
    [totalLoaded] is the length of the list. *)
Definition coherentCache (st : Storage) : Prop :=
  forall jl jp,
    loadItem POKEMON_KEY st = Some jl ->
    loadItem POKEMON_PAGINATION_KEY st = Some jp ->
    exists l p,
      asPokemonList jl = Some l ∧ asPaginationState jp = Some p
      ∧ 0 ≤ currentPage p ≤ 2 ^ 32 ∧ totalLoaded p = Z.of_nat (length l).

End Session.

(** ** What [Home] renders ([src/pages/Home.tsx], both versions)

    The three [return] statements of the component, with the parts of
    the markup that depend on the state. *)

Module Page.
Import JS LocalStorage UsePokemonList.

Inductive View : Type :=
| Skeleton : View
| ErrorPage (message : string) : View
| ListPage (items : list CachedPokemon) (dividers : nat)
    (spinner loadMoreAlert endOfList : bool) : View.

(** A [string | null] used as a condition. *)
Definition truthy (e : option string) : bool :=
  match e with
  | Some EmptyString => false
  | Some _ => true
  | None => false
  end.

(** The number of indices [index] below [n] with [index < n - 1]. *)
Definition dividersOf (n : nat) : nat := (n - 1)%nat.

Definition render (q : Query) (s : State) : View :=
  if isInitialLoading s then Skeleton
  else if truthy (error s) && (length (allPokemon s) =? 0)%nat
  then ErrorPage (default EmptyString (error s))
  else ListPage (allPokemon s) (dividersOf (length (allPokemon s)))
         (isFetching q)
         (truthy (error s) && (0 <? length (allPokemon s))%nat)
         (negb (hasMore (paginationState s)) && (0 <? length (allPokemon s))%nat).

End Page.

(** ** From the list to the details page

    [PokemonListItem] puts the id in a path and in an image url;
    [PokemonDetails] reads its route parameter with [parseInt];
    [pokemonApi] asks for the details under a path. *)

Module Details.
Import JS JS.JSON.

(** A number inside a template literal: [Number::toString]. *)
Definition numberToString (n : number) : string :=
  match n with
  | NaN => "NaN"
  | Num z =>
      if z <? 0 then String "-" (positiveIntegerToString (- z))
      else positiveIntegerToString z
  | Infinity negative => if negative then "-Infinity" else "Infinity"
  | Null => "null"
  end.

(** [src/components/home/PokemonListItem.tsx] *)
Definition imageUrl (id : number) : string :=
  "https://raw.githubusercontent.com/PokeAPI/sprites/master/sprites/pokemon/"
  +:+ numberToString id +:+ ".png".

Definition detailsPath (id : number) : string :=
  "/pokemon/" +:+ numberToString id.

(** [src/pages/PokemonDetails.tsx]: [parseInt(id || "1")]. *)
Definition pokemonId (param : option string) : number :=
  parseInt (Some (match param with
                  | Some EmptyString => "1"
                  | Some s => s
                  | None => "1"
                  end)).

(** [src/services/pokemonApi.ts]: the path of [getPokemonDetails]. *)
Definition getPokemonDetailsPath (id : number) : string :=
  "/pokemon/" +:+ numberToString id +:+ "/".

End Details.

(** ** [src/hooks/useInfiniteScroll.ts]

    The hook keeps three refs.  The observers it creates live in the
    page: [observers] lists them in the order of their creation, each with
    the element it observes, if it has not been disconnected. *)

Module InfiniteScroll.

Section Hook.
Context {Element Callback : Type}.

Record Hook : Type := {
  observers : list (option Element);
  observerRef : option nat;
  targetRef : option Element;
  onIntersectRef : option Callback;
  cleanupPending : bool;
}.

(** The refs as [useRef] makes them; the callback ref starts with a
    function that does nothing, here [None]. *)
Definition initial : Hook :=
  {| observers := []; observerRef := None; targetRef := None;
     onIntersectRef := None; cleanupPending := false |}.

(** [observer.disconnect()] *)
Definition disconnect (i : nat) (obs : list (option Element)) : list (option Element) :=
  <[i := None]> obs.

(** The body of a render: [onIntersectRef.current = onIntersect]. *)
Definition render (onIntersect : Callback) (h : Hook) : Hook :=
  {| observers := observers h; observerRef := observerRef h;
     targetRef := targetRef h; onIntersectRef := Some onIntersect;
     cleanupPending := cleanupPending h |}.

(** React binds the element that carries [targetRef], or unbinds it. *)
Definition bind (t : option Element) (h : Hook) : Hook :=
  {| observers := observers h; observerRef := observerRef h;
     targetRef := t; onIntersectRef := onIntersectRef h;
     cleanupPending := cleanupPending h |}.

(** The function that the layout effect returns. *)
Definition cleanup (h : Hook) : Hook :=
  {| observers := match observerRef h with
                  | Some i => disconnect i (observers h)
                  | None => observers h
                  end;
     observerRef := observerRef h; targetRef := targetRef h;
     onIntersectRef := onIntersectRef h; cleanupPending := false |}.

(** The body of the layout effect. *)
Definition effectBody (h : Hook) : Hook :=
  match targetRef h with
  | None => h
  | Some target =>
      let obs := match observerRef h with
                 | Some i => disconnect i (observers h)
                 | None => observers h
                 end in
      {| observers := obs ++ [Some target];
         observerRef := Some (length obs);
         targetRef := targetRef h; onIntersectRef := onIntersectRef h;
         cleanupPending := true |}
  end.

(** A change of the dependencies: React runs the cleanup that the last
    run of the effect returned, if it returned one, then the effect. *)
Definition rerun (h : Hook) : Hook :=
  effectBody (if cleanupPending h then cleanup h else h).

(** The component goes away. *)
Definition unmount (h : Hook) : Hook :=
  if cleanupPending h then cleanup h else h.

(** The callback given to [new IntersectionObserver]: what observer [i]
    calls when it reports that its first entry intersects or not. *)
Definition notify (i : nat) (isIntersecting : bool) (h : Hook) : option Callback :=
  match observers h !! i with
  | Some (Some _) => if isIntersecting then onIntersectRef h else None
  | _ => None
  end.

Inductive Step : Type :=
| Render (onIntersect : Callback) : Step
| Bind (t : option Element) : Step
| Rerun : Step
| Unmount : Step.

Definition step (h : Hook) (e : Step) : Hook :=
  match e with
  | Render f => render f h
  | Bind t => bind t h
  | Rerun => rerun h
  | Unmount => unmount h
  end.

(** The callback that the last render of a sequence of steps passed to
    the hook, if there was a render. *)
Definition lastRender (es : list Step) : option Callback :=
  foldl (fun last e => match e with Render f => Some f | _ => last end) None es.

(** At most the observer of [observerRef] observes an element, and then
    a cleanup is due. *)
Definition oneObserver (h : Hook) : Prop :=
  forall i t, observers h !! i = Some (Some t) ->
              observerRef h = Some i /\ cleanupPending h = true.

(** No observer observes an element. *)
Definition noObserver (h : Hook) : Prop :=
  forall i t, observers h !! i <> Some (Some t).

End Hook.
Arguments Hook : clear implicits.
Arguments Step : clear implicits.

End InfiniteScroll.

(** * Properties *)

Import JS WebStorage LocalStorage UsePokemonList Coordinator.

(** ** Reading back what [JSON.stringify] wrote *)

(** The two loads, with the reading at the declared type in place. *)
Lemma loadPokemonList_unfold (st : Storage) :
  loadPokemonList st
  = match getItem POKEMON_KEY st with
    | Normal None => None
    | Normal (Some data) =>
        match JSON.parse data with
        | Normal v => asPokemonList v
        | Throws => None
        end
    | Throws => None
    end.
Proof.
  unfold loadPokemonList, loadItem.
  destruct (getItem POKEMON_KEY st) as [[data|]|]; [|done|done].
  by destruct (JSON.parse data).
Qed.

Lemma loadPaginationState_unfold (st : Storage) :
  loadPaginationState st
  = match getItem POKEMON_PAGINATION_KEY st with
    | Normal None => None
    | Normal (Some data) =>
        match JSON.parse data with
        | Normal v => asPaginationState v
        | Throws => None
        end
    | Throws => None
    end.
Proof.
  unfold loadPaginationState, loadItem.
  destruct (getItem POKEMON_PAGINATION_KEY st) as [[data|]|]; [|done|done].
  by destruct (JSON.parse data).
Qed.

Section ReadBack.
Import JS.JSON.

Lemma append_cons (c : ascii) (a b : string) :
  String c a +:+ b = String c (a +:+ b).
Proof. reflexivity. Qed.

Lemma append_nil (b : string) : EmptyString +:+ b = b.
Proof. reflexivity. Qed.

Lemma append_assoc (a b c : string) : (a +:+ b) +:+ c = a +:+ (b +:+ c).
Proof.
  induction a as [|x a IH]; [done|].
  by rewrite !append_cons, IH.
Qed.

Lemma readUint_digits (d : uint) (c : ascii) (r : string) :
  digitCons c = None →
  readUint (NilEmpty.string_of_uint d +:+ String c r) = (d, String c r).
Proof.
  intros Hc. induction d as [|d IH|d IH|d IH|d IH|d IH|d IH|d IH|d IH|d IH|d IH];
    simpl NilEmpty.string_of_uint; rewrite ?append_cons, ?append_nil.
  - simpl. by rewrite Hc.
  - cbn [readUint]. by rewrite IH.
  - cbn [readUint]. by rewrite IH.
  - cbn [readUint]. by rewrite IH.
  - cbn [readUint]. by rewrite IH.
  - cbn [readUint]. by rewrite IH.
  - cbn [readUint]. by rewrite IH.
  - cbn [readUint]. by rewrite IH.
  - cbn [readUint]. by rewrite IH.
  - cbn [readUint]. by rewrite IH.
  - cbn [readUint]. by rewrite IH.
Qed.

Lemma to_uint_normal (p : positive) : unorm (Pos.to_uint p) = Pos.to_uint p.
Proof.
  rewrite <- (DecimalPos.Unsigned.to_of (Pos.to_uint p)).
  by rewrite DecimalPos.Unsigned.of_to.
Qed.

Lemma to_uint_valid (p : positive) : validIntPart (Pos.to_uint p) = true.
Proof.
  pose proof (to_uint_normal p) as Hn.
  pose proof (DecimalPos.Unsigned.to_uint_nonnil p) as Hnil.
  destruct (Pos.to_uint p) as [|d| | | | | | | | |]; try done.
  destruct d; try done; exfalso.
  all: rewrite unorm_D0 in Hn;
    match type of Hn with unorm ?u = _ =>
      pose proof (nb_digits_unorm u ltac:(done)) as Hle end;
    rewrite Hn in Hle; simpl in Hle; lia.
Qed.

Lemma of_uint_to_uint (p : positive) : Z.of_uint (Pos.to_uint p) = Z.pos p.
Proof.
  unfold Z.of_uint. by rewrite DecimalPos.Unsigned.of_to.
Qed.

Lemma delimiter_not_digit (c : ascii) : delimiter c = true → digitCons c = None.
Proof.
  unfold delimiter. intros [H|H]%orb_prop; apply Ascii.eqb_eq in H; by subst.
Qed.

Lemma readMagnitude_digits (neg : bool) (d : uint) (c : ascii) (r : string) :
  validIntPart d = true → delimiter c = true →
  readMagnitude neg (NilEmpty.string_of_uint d +:+ String c r)
  = Some (JNum (if neg then - Z.of_uint d else Z.of_uint d) 0, String c r).
Proof.
  intros Hd Hc. unfold readMagnitude.
  rewrite readUint_digits by by apply delimiter_not_digit.
  rewrite Hd.
  apply orb_prop in Hc as [Hc|Hc]; apply Ascii.eqb_eq in Hc; subst c;
    cbn [readFraction readExponent Ascii.eqb Bool.eqb orb];
    by rewrite DecimalFacts.app_nil_r.
Qed.

Lemma readNumber_digits (d : uint) (rest : string) :
  d ≠ Nil →
  readNumber (NilEmpty.string_of_uint d +:+ rest)
  = readMagnitude false (NilEmpty.string_of_uint d +:+ rest).
Proof. destruct d; [done | reflexivity ..]. Qed.

Lemma string_of_uint_nonnil (d : uint) :
  d ≠ Nil → NilZero.string_of_uint d = NilEmpty.string_of_uint d.
Proof. by destruct d. Qed.

(** [JSON.parse] reads the text of an integer back as that integer. *)
Lemma readNumber_integerText (z : Z) (c : ascii) (r : string) :
  delimiter c = true →
  readNumber (integerText z +:+ String c r) = Some (JNum z 0, String c r).
Proof.
  intros Hc. unfold integerText.
  destruct z as [|p|p]; simpl Z.to_int; unfold NilZero.string_of_int.
  - apply (readMagnitude_digits false (D0 Nil)); done.
  - pose proof (DecimalPos.Unsigned.to_uint_nonnil p) as Hnil.
    rewrite string_of_uint_nonnil, readNumber_digits by done.
    rewrite readMagnitude_digits by auto using to_uint_valid.
    by rewrite of_uint_to_uint.
  - pose proof (DecimalPos.Unsigned.to_uint_nonnil p) as Hnil.
    rewrite string_of_uint_nonnil by done.
    rewrite append_cons. unfold readNumber. simpl Ascii.eqb. cbv iota.
    rewrite readMagnitude_digits by auto using to_uint_valid.
    by rewrite of_uint_to_uint.
Qed.

Lemma integerText_start (z : Z) (rest : string) :
  ∃ c t, integerText z +:+ rest = String c t ∧ numberStart c = true.
Proof.
  unfold integerText. destruct z as [|p|p]; simpl Z.to_int;
    unfold NilZero.string_of_int.
  - by eexists _, _.
  - pose proof (DecimalPos.Unsigned.to_uint_nonnil p) as Hnil.
    rewrite string_of_uint_nonnil by done.
    destruct (Pos.to_uint p); [done | by eexists _, _ ..].
  - by eexists _, _.
Qed.

Lemma skipWS_numberStart (c : ascii) (t : string) :
  numberStart c = true → skipWS (String c t) = String c t.
Proof.
  destruct c as [[] [] [] [] [] [] [] []]; try discriminate; reflexivity.
Qed.

Lemma readValue_numberStart (fuel : nat) (c : ascii) (t : string) :
  numberStart c = true →
  readValue (S fuel) (String c t) = readNumber (String c t).
Proof.
  destruct c as [[] [] [] [] [] [] [] []]; try discriminate; reflexivity.
Qed.

Lemma skipWS_integerText (z : Z) (rest : string) :
  skipWS (integerText z +:+ rest) = integerText z +:+ rest.
Proof.
  destruct (integerText_start z rest) as (c & t & -> & Hc).
  by apply skipWS_numberStart.
Qed.

Lemma readValue_integerText (fuel : nat) (z : Z) (c : ascii) (r : string) :
  delimiter c = true →
  readValue (S fuel) (integerText z +:+ String c r) = Some (JNum z 0, String c r).
Proof.
  intros Hc. rewrite <- (readNumber_integerText z c r Hc).
  destruct (integerText_start z (String c r)) as (c' & t & -> & Hc').
  by apply readValue_numberStart.
Qed.

Lemma readValue_booleanText (fuel : nat) (b : bool) (r : string) :
  readValue (S fuel) (booleanText b +:+ r) = Some (JBool b, r).
Proof. by destruct b. Qed.

Lemma skipWS_booleanText (b : bool) (r : string) :
  skipWS (booleanText b +:+ r) = booleanText b +:+ r.
Proof. by destruct b. Qed.

Lemma quoteChar_plain (c : ascii) :
  plainChar c = true → quoteChar c = String c EmptyString.
Proof.
  destruct c as [[] [] [] [] [] [] [] []]; try discriminate; reflexivity.
Qed.

Lemma quoteChars_plain (k : string) : plain k = true → quoteChars k = k.
Proof.
  induction k as [|c k IH]; [done|]. simpl.
  intros [Hc Hk]%andb_prop. by rewrite quoteChar_plain, IH.
Qed.

Lemma readUnits_plain (k r : string) :
  plain k = true →
  ∃ us, readUnits (k +:+ String dquote r) = Some (us, r) ∧ unitsToString us = k.
Proof.
  induction k as [|c k IH]; intros Hk.
  - by exists [].
  - simpl in Hk. apply andb_prop in Hk as [Hc Hk].
    destruct (IH Hk) as (us & Hus & Hback).
    exists (Raw c :: us). rewrite append_cons. split; [|by simpl; rewrite Hback].
    unfold plainChar in Hc.
    apply andb_prop in Hc as [[H1 H2]%andb_prop H3].
    apply negb_true_iff in H1, H2, H3.
    cbn [readUnits]. by rewrite H1, H2, H3, Hus.
Qed.

Lemma readString_plain (k r : string) :
  plain k = true → readString (k +:+ String dquote r) = Some (k, r).
Proof.
  intros Hk. unfold readString.
  destruct (readUnits_plain k r Hk) as (us & -> & ->). done.
Qed.

Lemma skipWS_delimiter (c : ascii) (r : string) :
  delimiter c = true → skipWS (String c r) = String c r.
Proof.
  intros [H|H]%orb_prop; apply Ascii.eqb_eq in H; by subst.
Qed.

(** One member of an object: a plain key, a colon, a value that a
    delimiter follows. *)
Lemma readMembers_member (fuel : nat) (k V : string) (v : json) (c : ascii) (rest : string) :
  plain k = true → skipWS V = V →
  readValue fuel V = Some (v, String c rest) → delimiter c = true →
  readMembers (S fuel) (quote k +:+ ":" +:+ V)
  = if Ascii.eqb c ","
    then match readMembers fuel (skipWS rest) with
         | Some (l, r) => Some ((k, v) :: l, r)
         | None => None
         end
    else Some ([(k, v)], rest).
Proof.
  intros Hk HV Hv Hc. unfold quote.
  rewrite quoteChars_plain by done.
  rewrite append_cons, append_assoc, !append_cons, !append_nil.
  cbn [readMembers]. rewrite Ascii.eqb_refl.
  rewrite readString_plain by done.
  change (skipWS (String ":" V)) with (String ":"%char V). cbv beta iota.
  rewrite Ascii.eqb_refl, HV, Hv, skipWS_delimiter by done.
  apply orb_prop in Hc as [Hc|Hc]; apply Ascii.eqb_eq in Hc; subst c; done.
Qed.

Lemma quote_head (k r : string) :
  quote k +:+ r = String dquote (quoteChars k +:+ String dquote r).
Proof.
  unfold quote. by rewrite append_cons, append_assoc, append_cons, append_nil.
Qed.

Lemma skipWS_quote (k r : string) : skipWS (quote k +:+ r) = quote k +:+ r.
Proof. by rewrite quote_head. Qed.

Lemma readValue_object (fuel : nat) (k r : string) :
  readValue (S fuel) (String "{" (quote k +:+ r))
  = match readMembers fuel (quote k +:+ r) with
    | Some (l, r') => Some (JObj l, r')
    | None => None
    end.
Proof. by rewrite quote_head. Qed.

Lemma integerValue_0 (m : Z) : integerValue m 0 = Some m.
Proof. unfold integerValue. simpl. f_equal. lia. Qed.

(** The text of a pagination state, member by member. *)
Lemma paginationStateText_members (s : PaginationState) :
  paginationStateText s
  = String "{"
      (quote "currentPage" +:+ ":" +:+ integerText (currentPage s) +:+ String ","
      (quote "totalLoaded" +:+ ":" +:+ integerText (totalLoaded s) +:+ String ","
      (quote "hasMore" +:+ ":" +:+ booleanText (hasMore s) +:+ String ","
      (quote "lastFetchTime" +:+ ":" +:+ integerText (lastFetchTime s)
         +:+ String "}" EmptyString)))).
Proof.
  unfold paginationStateText, objectText.
  cbn [fmap list_fmap commaSeparated fst snd].
  by rewrite !append_assoc, !append_cons, !append_nil.
Qed.

Lemma readValue_paginationStateText (fuel : nat) (s : PaginationState) :
  readValue (6 + fuel) (paginationStateText s)
  = Some (JObj [("currentPage", JNum (currentPage s) 0);
                ("totalLoaded", JNum (totalLoaded s) 0);
                ("hasMore", JBool (hasMore s));
                ("lastFetchTime", JNum (lastFetchTime s) 0)], EmptyString).
Proof.
  rewrite paginationStateText_members.
  change (6 + fuel)%nat with (S (S (S (S (S (S fuel)))))).
  rewrite readValue_object.
  erewrite (readMembers_member _ "currentPage");
    [| done | apply skipWS_integerText | by apply readValue_integerText | done].
  rewrite Ascii.eqb_refl, skipWS_quote.
  erewrite (readMembers_member _ "totalLoaded");
    [| done | apply skipWS_integerText | by apply readValue_integerText | done].
  rewrite Ascii.eqb_refl, skipWS_quote.
  erewrite (readMembers_member _ "hasMore");
    [| done | apply skipWS_booleanText | by apply readValue_booleanText | done].
  rewrite Ascii.eqb_refl, skipWS_quote.
  erewrite (readMembers_member _ "lastFetchTime");
    [| done | apply skipWS_integerText | by apply readValue_integerText | done].
  reflexivity.
Qed.

(** [JSON.parse(JSON.stringify(s))] for a pagination state [s]. *)
Lemma parse_paginationStateText (s : PaginationState) :
  parse (paginationStateText s)
  = Normal (JObj [("currentPage", JNum (currentPage s) 0);
                  ("totalLoaded", JNum (totalLoaded s) 0);
                  ("hasMore", JBool (hasMore s));
                  ("lastFetchTime", JNum (lastFetchTime s) 0)]).
Proof.
  unfold parse.
  assert (Hfuel : ∃ n, (2 * String.length (paginationStateText s) + 2 = 6 + n)%nat).
  { rewrite paginationStateText_members, quote_head.
    set (X := quoteChars _ +:+ _).
    change (String.length (String "{" (String dquote X)))
      with (S (S (String.length X))).
    exists (2 * String.length X)%nat. lia. }
  destruct Hfuel as [n ->].
  assert (skipWS (paginationStateText s) = paginationStateText s) as ->.
  { by rewrite paginationStateText_members. }
  by rewrite readValue_paginationStateText.
Qed.

Lemma asPaginationState_parse (s : PaginationState) :
  match parse (paginationStateText s) with
  | Normal v => asPaginationState v
  | Throws => None
  end = Some s.
Proof.
  rewrite parse_paginationStateText.
  unfold asPaginationState. cbn -[integerValue].
  rewrite !integerValue_0. by destruct s.
Qed.
End ReadBack.

(** ** The id in a well-formed url *)

Section UrlId.

Lemma split_nonempty (sep : ascii) (s : string) : split sep s ≠ [].
Proof.
  destruct s as [|c s]; simpl; [done|].
  destruct (Ascii.eqb c sep); [done|]. by destruct (split sep s).
Qed.

Lemma split_append (sep : ascii) (a b : string) :
  split sep (a +:+ String sep b) = split sep a ++ split sep b.
Proof.
  induction a as [|c a IH].
  - rewrite append_nil. simpl. by rewrite Ascii.eqb_refl.
  - rewrite append_cons. simpl. rewrite IH.
    destruct (Ascii.eqb c sep); [done|].
    pose proof (split_nonempty sep a). by destruct (split sep a).
Qed.

Lemma split_without_separator (sep : ascii) (s : string) :
  occurs sep s = false → split sep s = [s].
Proof.
  induction s as [|c s IH]; [done|]. simpl.
  intros [Hc Hs]%orb_false_elim. by rewrite Hc, IH.
Qed.

Lemma occurs_string_of_uint (d : uint) : occurs "/" (NilEmpty.string_of_uint d) = false.
Proof.
  induction d as [|d IH|d IH|d IH|d IH|d IH|d IH|d IH|d IH|d IH|d IH];
    [done | exact IH ..].
Qed.

Lemma occurs_integerText (z : Z) : occurs "/" (JSON.integerText z) = false.
Proof.
  unfold JSON.integerText. destruct z as [|p|p]; simpl Z.to_int;
    unfold NilZero.string_of_int; [done | |].
  - rewrite string_of_uint_nonnil by apply DecimalPos.Unsigned.to_uint_nonnil.
    apply occurs_string_of_uint.
  - rewrite string_of_uint_nonnil by apply DecimalPos.Unsigned.to_uint_nonnil.
    simpl. apply occurs_string_of_uint.
Qed.

(** The second-to-last part of [base/seg/] is [seg]. *)
Lemma second_to_last_part (base seg : string) :
  occurs "/" seg = false →
  let parts := split "/" (base +:+ String "/" (seg +:+ String "/" EmptyString)) in
  index parts (Z.of_nat (length parts) - 2) = Some seg.
Proof.
  intros Hseg parts. subst parts.
  rewrite !split_append, (split_without_separator "/" seg) by done.
  simpl split.
  rewrite length_app. simpl length. unfold index.
  destruct (Z.ltb_spec (Z.of_nat (length (split "/" base) + 2) - 2) 0); [lia|].
  replace (Z.to_nat (Z.of_nat (length (split "/" base) + 2) - 2))
    with (length (split "/" base) + 0)%nat by lia.
  by rewrite lookup_app_r, Nat.add_comm, Nat.add_sub by lia.
Qed.

Lemma readDigits_acc (d : uint) (acc : positive) :
  readDigits 10 (Some (Z.pos acc)) (NilEmpty.string_of_uint d)
  = Some (Z.pos (Pos.of_uint_acc d acc)).
Proof.
  revert acc. induction d as [|d IH|d IH|d IH|d IH|d IH|d IH|d IH|d IH|d IH|d IH];
    intros acc; [done|..];
    simpl NilEmpty.string_of_uint; cbn [readDigits];
    match goal with |- context [digitValue 10 ?c] =>
      let v := eval vm_compute in (digitValue 10 c) in
      change (digitValue 10 c) with v
    end; cbv beta iota; simpl Pos.of_uint_acc; rewrite <- IH;
    f_equal; f_equal; simpl default; lia.
Qed.

Lemma readDigits_zero (d : uint) :
  readDigits 10 (Some 0) (NilEmpty.string_of_uint d) = Some (Z.of_N (Pos.of_uint d)).
Proof.
  induction d as [|d IH|d IH|d IH|d IH|d IH|d IH|d IH|d IH|d IH|d IH];
    [done | exact IH | ..]; apply readDigits_acc.
Qed.

Lemma readDigits_start (d : uint) :
  d ≠ Nil →
  readDigits 10 None (NilEmpty.string_of_uint d)
  = readDigits 10 (Some 0) (NilEmpty.string_of_uint d).
Proof. by destruct d. Qed.

(** A text that begins with an ASCII character other than white space
    has nothing for [trimStart] to strip. *)
Lemma trimStart_plain (a : ascii) (r : string) :
  isStrWhiteSpaceChar a = false → (N_of_ascii a <? 128)%N = true →
  trimStart (String a r) = String a r.
Proof.
  intros Hws Ha. apply N.ltb_lt in Ha.
  assert (H2 : ∀ b, isStrWhiteSpace2 a b = false).
  { intros b. unfold isStrWhiteSpace2.
    destruct (N.eqb_spec (N_of_ascii a) 194); [lia | done]. }
  assert (H3 : ∀ b c, isStrWhiteSpace3 a b c = false).
  { intros b c. unfold isStrWhiteSpace3. cbv zeta.
    destruct (N.eqb_spec (N_of_ascii a) 225); [lia|].
    destruct (N.eqb_spec (N_of_ascii a) 226); [lia|].
    destruct (N.eqb_spec (N_of_ascii a) 227); [lia|].
    destruct (N.eqb_spec (N_of_ascii a) 239); [lia|]. done. }
  destruct r as [|b [|c r]]; cbn [trimStart]; rewrite Hws, ?H2, ?H3; done.
Qed.

(** The text of a natural number begins with no white space, no sign and
    no [0x]. *)
Lemma plain_digits (p : positive) :
  let t := NilEmpty.string_of_uint (Pos.to_uint p) in
  trimStart t = t ∧ stripSign t = (false, t) ∧ stripHexPrefix t = (10, t).
Proof.
  pose proof (DecimalPos.Unsigned.to_uint_nonnil p) as Hnil.
  destruct (Pos.to_uint p) as [|d|d|d|d|d|d|d|d|d|d]; [done|..];
    (split_and!; [by apply trimStart_plain | done | by destruct d]).
Qed.

Lemma parseInt_natural (neg : bool) (p : positive) :
  let t := NilEmpty.string_of_uint (Pos.to_uint p) in
  (let '(radix, s) := stripHexPrefix t in
   match readDigits radix None s with
   | Some m => toNumber (if neg then - m else m)
   | None => NaN
   end) = toNumber (if neg then Z.neg p else Z.pos p).
Proof.
  intros t. subst t.
  pose proof (plain_digits p) as H. cbv zeta in H. destruct H as (_ & _ & ->).
  rewrite readDigits_start, readDigits_zero
    by apply DecimalPos.Unsigned.to_uint_nonnil.
  rewrite DecimalPos.Unsigned.of_to. by destruct neg.
Qed.

(** [parseInt] reads the decimal text of an integer as the number that
    the integer becomes. *)
Lemma parseInt_integerText (z : Z) :
  parseInt (Some (JSON.integerText z)) = toNumber z.
Proof.
  unfold JSON.integerText. destruct z as [|p|p]; simpl Z.to_int;
    unfold NilZero.string_of_int; [done | |];
    rewrite string_of_uint_nonnil by apply DecimalPos.Unsigned.to_uint_nonnil.
  - unfold parseInt, ToString.
    pose proof (plain_digits p) as H. cbv zeta in H. destruct H as (-> & -> & _).
    apply (parseInt_natural false).
  - unfold parseInt, ToString.
    rewrite trimStart_plain by done.
    change (stripSign (String "-" ?t)) with (true, t).
    apply (parseInt_natural true).
Qed.

(** A double holds every integer up to 2^53. *)
Lemma toNumber_exact (z : Z) : Z.abs z ≤ 2 ^ 53 → toNumber z = Num z.
Proof.
  intros Hz. destruct (decide (Z.abs z = 2 ^ 53)) as [He | Hne].
  - destruct (Z.abs_spec z) as [[_ Ha] | [_ Ha]]; rewrite Ha in He.
    + by subst z.
    + replace z with (- 2 ^ 53) by lia. done.
  - unfold toNumber. cbv zeta.
    assert (Hlog : Z.log2 (Z.abs z) - 52 ≤ 0).
    { destruct (decide (Z.abs z = 0)) as [-> | Hnz]; [done|].
      assert (Z.log2 (Z.abs z) < 53); [|lia].
      apply Z.log2_lt_pow2; lia. }
    by apply Z.leb_le in Hlog as ->.
Qed.

(** The number that an integer becomes has the sign of the integer. *)
Lemma toNumber_opp (z c : Z) : toNumber c = Num z → toNumber (- c) = Num (- z).
Proof.
  unfold toNumber. cbv zeta. rewrite Z.abs_opp.
  destruct (Z.log2 (Z.abs c) - 52 <=? 0) eqn:Hs.
  - intros [= <-]. done.
  - destruct (2 ^ 1024 <=? _) eqn:Hbig; [done|].
    assert (Hc : c ≠ 0).
    { intros ->. done. }
    destruct (Z.ltb_spec c 0), (Z.ltb_spec (- c) 0); try lia;
      intros [= <-]; f_equal; lia.
Qed.

(** An item whose url is [base/n/] gets the id that [n] becomes. *)
Lemma toCachedPokemon_url (nm base : string) (n : Z) :
  toCachedPokemon
    {| Api.name := nm;
       Api.url := base +:+ String "/" (JSON.integerText n +:+ String "/" EmptyString) |}
  = {| id := toNumber n; name := nm |}.
Proof.
  unfold toCachedPokemon. simpl Api.url. simpl Api.name.
  rewrite second_to_last_part by apply occurs_integerText.
  by rewrite parseInt_integerText.
Qed.

(** When a double holds [n], an item whose url is [base/n/] gets the id
    [n]. *)
Lemma toCachedPokemon_well_formed (nm base : string) (n : Z) :
  toNumber n = Num n →
  toCachedPokemon
    {| Api.name := nm;
       Api.url := base +:+ String "/" (JSON.integerText n +:+ String "/" EmptyString) |}
  = {| id := Num n; name := nm |}.
Proof. intros Hn. by rewrite toCachedPokemon_url, Hn. Qed.

End UrlId.

(** ** The accumulated list after a settled fetch *)

Section Settlement.
Context (p : Api.PokemonListResponse) (now : Z) (s : State) (st : Storage).

Lemma unseen_existingIds (prev new : list CachedPokemon) :
  filter (fun x => id x ∉ (list_to_set (id <$> prev) : gset number)) new
  = unseen prev new.
Proof.
  apply list_filter_iff. intros x. unfold ids.
  by rewrite elem_of_list_to_set.
Qed.

Lemma hook_settled_list :
  allPokemon (UsePokemonList.queryResultEffect (settled p) now (s, st)).1
  = if currentOffset s =? 0 then pageItems p
    else allPokemon s ++ unseen (allPokemon s) (pageItems p).
Proof.
  unfold UsePokemonList.queryResultEffect, settled; simpl.
  destruct (currentOffset s =? 0); simpl; [done|].
  by rewrite unseen_existingIds.
Qed.

Lemma home_settled_list :
  allPokemon (Home.queryResultEffect (settled p) now (s, st)).1
  = if currentOffset s =? 0 then pageItems p
    else allPokemon s ++ unseen (allPokemon s) (pageItems p).
Proof.
  unfold Home.queryResultEffect, settled; simpl.
  destruct (currentOffset s =? 0); simpl; [done|].
  by rewrite unseen_existingIds.
Qed.

End Settlement.

(** A render in which a fetch has settled with success is a [settled]
    query. *)
Lemma settled_query (q : Query) (p : Api.PokemonListResponse) :
  data q = Some p → isFetching q = false → queryError q = false →
  q = settled p.
Proof. destruct q; simpl; intros; by subst. Qed.

Lemma unseen_sublist (prev new : list CachedPokemon) :
  unseen prev new `sublist_of` new.
Proof. apply sublist_filter. Qed.

Lemma unseen_elem_of (prev new : list CachedPokemon) (x : CachedPokemon) :
  x ∈ unseen prev new ↔ x ∈ new ∧ id x ∉ ids prev.
Proof. unfold unseen. rewrite list_elem_of_filter. tauto. Qed.

(** C3: a successful fetch that settles at an offset above 0 keeps every
    entry of the accumulated list where it was, and appends, in page
    order, exactly the items of the page whose id the list does not hold. *)
Theorem append_keeps_prefix_and_adds_unseen
    (q : Query) (p : Api.PokemonListResponse) (now : Z) (s : State) (st : Storage) :
  data q = Some p → isFetching q = false → queryError q = false →
  0 < currentOffset s →
  let prev := allPokemon s in
  let new := allPokemon (UsePokemonList.queryResultEffect q now (s, st)).1 in
  (∀ (i : nat) (e : CachedPokemon), prev !! i = Some e → new !! i = Some e)
  ∧ ∃ added : list CachedPokemon,
      new = prev ++ added
      ∧ added = filter (fun x => id x ∉ ids prev) (pageItems p)
      ∧ added `sublist_of` pageItems p
      ∧ ∀ x, x ∈ added ↔ x ∈ pageItems p ∧ id x ∉ ids prev.
Proof.
  intros Hd Hf He Hoff prev new.
  assert (Hnew : new = prev ++ unseen prev (pageItems p)).
  { subst new prev. rewrite (settled_query q p Hd Hf He), hook_settled_list.
    destruct (Z.eqb_spec (currentOffset s) 0); [lia | done]. }
  split.
  - intros i e Hi. rewrite Hnew. rewrite lookup_app_l; [done|].
    by eapply lookup_lt_Some.
  - exists (unseen prev (pageItems p)).
    split_and!; [done | done | apply unseen_sublist | apply unseen_elem_of].
Qed.

(** C4: a successful fetch that settles at offset 0 replaces the
    accumulated list by the parsed page: each item carries the id that
    [parseInt] reads in the second-to-last part of its url split at [/],
    and its name, so that an item whose url is [base/n/], for an integer
    [n] that a number holds (every integer up to 2^53 is one), is there
    with the id [n]; an entry of the old list whose id is not in the page
    has its id nowhere in the new list. *)
Theorem offset_zero_replaces_list
    (q : Query) (p : Api.PokemonListResponse) (now : Z) (s : State) (st : Storage) :
  data q = Some p → isFetching q = false → queryError q = false →
  currentOffset s = 0 →
  let new := allPokemon (UsePokemonList.queryResultEffect q now (s, st)).1 in
  new = (fun r =>
           let parts := split "/" (Api.url r) in
           {| id := parseInt (index parts (Z.of_nat (length parts) - 2));
              name := Api.name r |}) <$> Api.results p
  ∧ (∀ r base n,
       r ∈ Api.results p →
       toNumber n = Num n →
       Api.url r = base +:+ String "/" (JSON.integerText n +:+ String "/" EmptyString) →
       {| id := Num n; name := Api.name r |} ∈ new)
  ∧ ∀ e, e ∈ allPokemon s → id e ∉ ids (pageItems p) → id e ∉ ids new.
Proof.
  intros Hd Hf He Hoff new.
  assert (Hnew : new = pageItems p).
  { subst new. rewrite (settled_query q p Hd Hf He), hook_settled_list.
    by rewrite Hoff. }
  split_and!; [by rewrite Hnew | | by rewrite Hnew].
  intros r base n Hr Hn Hurl. rewrite Hnew. unfold pageItems.
  apply list_elem_of_fmap. exists r. split; [|done].
  destruct r as [nm u]. simpl in *. subst u.
  by rewrite toCachedPokemon_well_formed.
Qed.

(** ** No duplicate id *)

Lemma unseen_ids_NoDup (prev new : list CachedPokemon) :
  NoDup (ids new) → NoDup (ids (unseen prev new)).
Proof.
  unfold ids. intros Hnew. eapply sublist_NoDup; [exact Hnew | apply fmap_sublist, unseen_sublist].
Qed.

Lemma append_unseen_NoDup (prev new : list CachedPokemon) :
  NoDup (ids prev) → NoDup (ids new) → NoDup (ids (prev ++ unseen prev new)).
Proof.
  intros Hprev Hnew. unfold ids. rewrite fmap_app. apply NoDup_app.
  split_and!; [done | | by apply unseen_ids_NoDup].
  intros i Hi Hin. apply list_elem_of_fmap in Hin as (x & -> & Hx).
  apply unseen_elem_of in Hx as [_ Hx]. by apply Hx.
Qed.

Lemma merge_NoDup (effect : Query → Z → World → World) (w : World) (f : Fetch) :
  merges_like_the_hook effect →
  NoDup (ids (pageItems (page f))) →
  (offset f ≠ 0 → NoDup (ids (allPokemon w.1))) →
  NoDup (ids (allPokemon (merge effect w f).1)).
Proof.
  intros Heff Hpage Hprev. unfold merge. rewrite Heff. simpl.
  destruct (Z.eqb_spec (offset f) 0); [done|].
  apply append_unseen_NoDup; auto.
Qed.

Lemma mergeAll_NoDup (effect : Query → Z → World → World)
    (w : World) (first : Fetch) (rest : list Fetch) :
  merges_like_the_hook effect →
  offset first = 0 →
  NoDup (ids (pageItems (page first))) →
  Forall (fun f => NoDup (ids (pageItems (page f)))) rest →
  NoDup (ids (allPokemon (mergeAll effect w first rest).1)).
Proof.
  intros Heff H0 Hfirst Hrest. unfold mergeAll.
  assert (Hstart : NoDup (ids (allPokemon (merge effect w first).1))).
  { apply merge_NoDup; [done | done | congruence]. }
  revert Hstart. generalize (merge effect w first). clear w first H0 Hfirst.
  induction Hrest as [|f rest Hf _ IH]; intros w Hw; simpl; [done|].
  apply IH. apply merge_NoDup; auto.
Qed.

(** C1, as amended: over every sequence of successful fetches that the
    coordinator merges, a replacement at offset 0 and then merges at
    offsets above 0, the accumulated list has no two entries with one id,
    provided no page has two items with one id.  It holds of the hook and
    of the page. *)
Theorem no_duplicate_ids_across_pages
    (w : World) (first : Fetch) (rest : list Fetch) :
  offset first = 0 →
  Forall (fun f => 0 < offset f) rest →
  NoDup (ids (pageItems (page first))) →
  Forall (fun f => NoDup (ids (pageItems (page f)))) rest →
  NoDup (ids (allPokemon (mergeAll UsePokemonList.queryResultEffect w first rest).1))
  ∧ NoDup (ids (allPokemon (mergeAll Home.queryResultEffect w first rest).1)).
Proof.
  intros H0 _ Hfirst Hrest. split; apply mergeAll_NoDup; try done.
  - intros p now s st. apply hook_settled_list.
  - intros p now s st. apply home_settled_list.
Qed.

(** The amended C1 at a first page followed by a page that overlaps it. *)
Lemma no_duplicate_ids_across_pages_witness :
  NoDup (ids (allPokemon (mergeAll UsePokemonList.queryResultEffect
                            (initialState, Samples.roomy)
                            {| offset := 0; page := Samples.firstPage; time := 1000 |}
                            [{| offset := 20; page := Samples.overlappingPage; time := 2000 |}]).1))
  ∧ NoDup (ids (allPokemon (mergeAll Home.queryResultEffect
                            (initialState, Samples.roomy)
                            {| offset := 0; page := Samples.firstPage; time := 1000 |}
                            [{| offset := 20; page := Samples.overlappingPage; time := 2000 |}]).1)).
Proof.
  apply (no_duplicate_ids_across_pages (initialState, Samples.roomy)
           {| offset := 0; page := Samples.firstPage; time := 1000 |}
           [{| offset := 20; page := Samples.overlappingPage; time := 2000 |}]).
  - reflexivity.
  - constructor; [reflexivity | constructor].
  - apply (bool_decide_unpack _). vm_compute. exact I.
  - constructor; [| constructor].
    apply (bool_decide_unpack _). vm_compute. exact I.
Defined.

(** C1 as stated fails: a page at offset 0 that names the id 1 twice puts
    two entries with id 1 in the accumulated list. *)
Lemma duplicate_ids_within_one_page :
  let first := {| offset := 0; page := Samples.twinPage; time := 1000 |} in
  let w := mergeAll UsePokemonList.queryResultEffect (initialState, Samples.roomy) first [] in
  offset first = 0
  ∧ allPokemon w.1 = [Samples.cached 1 "bulbasaur"; Samples.cached 1 "bulbasaur-again"]
  ∧ ¬ NoDup (ids (allPokemon w.1)).
Proof.
  split_and!; [reflexivity | reflexivity |].
  apply (bool_decide_eq_false_1 (NoDup _)). vm_compute. reflexivity.
Qed.

(** The callbacks and the error effect leave the accumulated list as it
    is, and a refresh empties it: none of them brings a duplicate. *)
Lemma callbacks_keep_the_list (q : Query) (s : State) (st : Storage) :
  allPokemon (loadMoreData q s) = allPokemon s
  ∧ allPokemon (handleRetryLoadMore q s) = allPokemon s
  ∧ allPokemon (queryErrorEffect q s) = allPokemon s
  ∧ allPokemon (handleRefresh (s, st)).1 = [].
Proof.
  unfold loadMoreData, handleRetryLoadMore, loadMoreBody, queryErrorEffect.
  split_and!; [| | | done].
  - by destruct (_ && _).
  - by destruct (_ && _).
  - by destruct (queryError q).
Qed.

(** ** [totalLoaded] and the length of the list *)

(** In the hook, after a successful fetch has settled, at offset 0 or
    above, [totalLoaded] is the length of the accumulated list. *)
Lemma hook_totalLoaded_is_length
    (q : Query) (p : Api.PokemonListResponse) (now : Z) (s : State) (st : Storage) :
  data q = Some p → isFetching q = false → queryError q = false →
  let s' := (UsePokemonList.queryResultEffect q now (s, st)).1 in
  totalLoaded (paginationState s') = Z.of_nat (length (allPokemon s')).
Proof.
  intros Hd Hf He. rewrite (settled_query q p Hd Hf He).
  unfold UsePokemonList.queryResultEffect, settled; simpl.
  destruct (currentOffset s =? 0); simpl; [done|].
  rewrite length_app. lia.
Qed.

(** In the page, the replacement at offset 0 has it too. *)
Lemma home_totalLoaded_is_length_at_offset_zero
    (q : Query) (p : Api.PokemonListResponse) (now : Z) (s : State) (st : Storage) :
  data q = Some p → isFetching q = false → queryError q = false →
  currentOffset s = 0 →
  let s' := (Home.queryResultEffect q now (s, st)).1 in
  totalLoaded (paginationState s') = Z.of_nat (length (allPokemon s')).
Proof.
  intros Hd Hf He Hoff. rewrite (settled_query q p Hd Hf He).
  unfold Home.queryResultEffect, settled; simpl.
  by rewrite Hoff.
Qed.

(** C2 fails in [Home.tsx]: with bulbasaur and ivysaur loaded, the page
    [ivysaur, venusaur] settles at offset 20; the list gets the one unseen
    item and has length 3, and [totalLoaded] counts both items of the page
    and is 4.  The hook gives 3 there. *)
Theorem home_totalLoaded_counts_items_not_appended :
  let q := settled Samples.overlappingPage in
  let home := (Home.queryResultEffect q 2000 (Samples.afterFirstPage, Samples.roomy)).1 in
  let hook := (UsePokemonList.queryResultEffect q 2000 (Samples.afterFirstPage, Samples.roomy)).1 in
  allPokemon home = [Samples.cached 1 "bulbasaur"; Samples.cached 2 "ivysaur";
                     Samples.cached 3 "venusaur"]
  ∧ totalLoaded (paginationState home) = 4
  ∧ Z.of_nat (length (allPokemon home)) = 3
  ∧ allPokemon hook = allPokemon home
  ∧ totalLoaded (paginationState hook) = 3.
Proof. vm_compute. split_and!; reflexivity. Qed.

(** ** [loadMoreData], the error effect, retry and refresh *)

(** The five guards of [loadMoreData], one by one. *)
Lemma loadMore_blocked (q : Query) (seen pending : State) :
  isFetching q = true ∨ isLoadingMore seen = true
  ∨ hasMore (paginationState seen) = false
  ∨ skipQuery seen = false ∨ isInitialLoading seen = true →
  loadMoreBody q seen pending = pending.
Proof.
  unfold loadMoreBody.
  intros [H | [H | [H | [H | H]]]]; rewrite H;
    destruct (isFetching q), (isLoadingMore seen),
      (hasMore (paginationState seen)), (skipQuery seen),
      (isInitialLoading seen); simpl; done.
Qed.

Lemma loadMore_advances (q : Query) (s : State) :
  isFetching q = false → isLoadingMore s = false →
  hasMore (paginationState s) = true →
  skipQuery s = true → isInitialLoading s = false →
  loadMoreData q s
  = {| allPokemon := allPokemon s; paginationState := paginationState s;
       currentOffset := currentOffset s + 20; skipQuery := false;
       isInitialLoading := false; error := error s;
       isLoadingMore := true |}.
Proof.
  intros H1 H2 H3 H4 H5. unfold loadMoreData, loadMoreBody.
  rewrite H1, H2, H3, H4, H5. simpl.
  unfold setSkipQuery, setCurrentOffset, setIsLoadingMore; simpl.
  by rewrite H5.
Qed.

(** C7: [loadMoreData] in a render where a request is in flight, or more
    is being loaded already, or there is no more to load, changes no cell
    of the state. *)
Theorem loadMore_guarded_is_noop (q : Query) (s : State) :
  isFetching q = true ∨ isLoadingMore s = true ∨ hasMore (paginationState s) = false →
  loadMoreData q s = s.
Proof.
  intros H. apply loadMore_blocked. tauto.
Qed.

(** The guard of [loadMoreData] does not read [error]. *)
Lemma loadMoreBody_setError (q : Query) (s pending : State) (e : option string) :
  loadMoreBody q (setError e s) pending = loadMoreBody q s pending.
Proof. reflexivity. Qed.

(** C8: when a fetch fails, the error effect sets [error] to the fixed
    message, closes the gate and clears [isLoadingMore], and touches
    nothing else; with the gate closed no request is made, and neither
    query effect opens it again.  [handleRetryLoadMore] clears [error] and
    runs [loadMoreData] under its guard: where the guard of [loadMoreData]
    fails, only [error] changes. *)
Theorem failure_closes_gate_and_retry_goes_through_loadMore
    (q : Query) (s : State) :
  queryError q = true →
  let s1 := queryErrorEffect q s in
  s1 = {| allPokemon := allPokemon s; paginationState := paginationState s;
          currentOffset := currentOffset s; skipQuery := true;
          isInitialLoading := isInitialLoading s;
          error := Some "Failed to fetch Pokemon data";
          isLoadingMore := false |}
  ∧ querySkip s1 = true
  ∧ (∀ q' now st,
       skipQuery (queryErrorEffect q' s1) = true
       ∧ skipQuery (UsePokemonList.queryResultEffect q' now (s1, st)).1 = true)
  ∧ (∀ q' s2,
       handleRetryLoadMore q' s2 = loadMoreData q' (setError None s2)
       ∧ error (handleRetryLoadMore q' s2) = None
       ∧ (isFetching q' = true ∨ isLoadingMore s2 = true
          ∨ hasMore (paginationState s2) = false
          ∨ skipQuery s2 = false ∨ isInitialLoading s2 = true →
          handleRetryLoadMore q' s2 = setError None s2)).
Proof.
  intros He s1. subst s1. unfold queryErrorEffect. rewrite He. simpl.
  split_and!; try done.
  - intros q' now st. split.
    + by destruct (queryError q').
    + unfold UsePokemonList.queryResultEffect.
      destruct (data q'); simpl; [|done].
      destruct (negb (isFetching q') && negb (queryError q')); simpl; [|done].
      by destruct (_ =? 0).
  - intros q' s2. unfold handleRetryLoadMore, loadMoreData.
    split_and!.
    + reflexivity.
    + unfold loadMoreBody. by destruct (_ && _).
    + intros H. by apply loadMore_blocked.
Qed.

(** C10: [handleRefresh], which the hook and the page write with the same
    statements, leaves [isInitialLoading] as it was, while it empties the
    list and sets the offset to 0; once the initial load is over, the flag
    is still [false] after a refresh. *)
Theorem refresh_keeps_isInitialLoading (s : State) (st : Storage) :
  let s' := (handleRefresh (s, st)).1 in
  isInitialLoading s' = isInitialLoading s
  ∧ allPokemon s' = []
  ∧ currentOffset s' = 0
  ∧ s' = {| allPokemon := [];
            paginationState := {| currentPage := 0; totalLoaded := 0;
                                  hasMore := true; lastFetchTime := 0 |};
            currentOffset := 0; skipQuery := false;
            isInitialLoading := isInitialLoading s;
            error := None; isLoadingMore := false |}.
Proof. split_and!; reflexivity. Qed.

(** ** The mount effect *)

(** C5: on mount, with a cached list and a cached pagination state both
    there and [now - lastFetchTime] below five minutes, the list and the
    pagination state are those of the cache, the offset is
    [currentPage * 20], [isInitialLoading] is [false], the gate stays
    closed, so that no request is made, and the store is as it was. *)
Theorem mount_hydrates_from_fresh_cache
    (now : Z) (st : Storage) (l : list CachedPokemon) (p : PaginationState) :
  loadPokemonList st = Some l →
  loadPaginationState st = Some p →
  now - lastFetchTime p < 5 * 60 * 1000 →
  let w' := mountEffect now (initialState, st) in
  w'.1 = {| allPokemon := l; paginationState := p;
            currentOffset := currentPage p * 20; skipQuery := true;
            isInitialLoading := false; error := None;
            isLoadingMore := false |}
  ∧ querySkip w'.1 = true
  ∧ w'.2 = st.
Proof.
  intros Hl Hp Hfresh. unfold mountEffect. rewrite Hl, Hp.
  assert ((now - lastFetchTime p <? CACHE_DURATION) = true) as ->.
  { apply Z.ltb_lt. unfold CACHE_DURATION. lia. }
  done.
Qed.

Lemma mount_hydrates_from_fresh_cache_witness :
  let now := 1000 + 2 * 60 * 1000 in
  let w' := mountEffect now (initialState, Samples.firstPageCache) in
  w'.1 = {| allPokemon := [Samples.cached 1 "bulbasaur"; Samples.cached 2 "ivysaur"];
            paginationState := Samples.firstPageState;
            currentOffset := currentPage Samples.firstPageState * 20;
            skipQuery := true; isInitialLoading := false; error := None;
            isLoadingMore := false |}
  ∧ querySkip w'.1 = true
  ∧ w'.2 = Samples.firstPageCache.
Proof.
  apply (mount_hydrates_from_fresh_cache (1000 + 2 * 60 * 1000) Samples.firstPageCache
           [Samples.cached 1 "bulbasaur"; Samples.cached 2 "ivysaur"]
           Samples.firstPageState).
  - vm_compute. reflexivity.
  - vm_compute. reflexivity.
  - vm_compute. reflexivity.
Defined.

(** A load that returns a value has read the store. *)
Lemma loadPokemonList_accessible (st : Storage) (l : list CachedPokemon) :
  loadPokemonList st = Some l → accessible st = true.
Proof.
  rewrite loadPokemonList_unfold. unfold getItem. by destruct (accessible st).
Qed.

Lemma clearPokemonData_accessible (st : Storage) :
  accessible st = true →
  clearPokemonData st
  = {| items := delete POKEMON_PAGINATION_KEY (delete POKEMON_KEY (items st));
       quota := quota st; accessible := true |}.
Proof.
  intros Ha. unfold clearPokemonData, removeItem. rewrite Ha. reflexivity.
Qed.

Lemma clearPokemonData_inaccessible (st : Storage) :
  accessible st = false → clearPokemonData st = st.
Proof.
  intros Ha. unfold clearPokemonData, removeItem. by rewrite Ha.
Qed.

(** A load at the declared type is the reading of [loadItem] at that
    type. *)
Lemma loadPokemonList_loadItem (st : Storage) :
  loadPokemonList st = loadItem POKEMON_KEY st ≫= asPokemonList.
Proof. reflexivity. Qed.

Lemma loadPaginationState_loadItem (st : Storage) :
  loadPaginationState st = loadItem POKEMON_PAGINATION_KEY st ≫= asPaginationState.
Proof. reflexivity. Qed.

(** C6, as amended: on mount, when a load returns [undefined] (there is
    no entry, its text is not JSON, or the store throws), or when both
    entries are there, of their declared types, and [lastFetchTime] is
    five minutes old or more, the offset is 0, the gate is open and
    [isInitialLoading] is [false]; when both entries are there and stale,
    both keys are removed from the store; when a load returns
    [undefined], the store is left as it is. *)
Theorem mount_without_fresh_cache (now : Z) (st : Storage) :
  (loadItem POKEMON_KEY st = None ∨ loadItem POKEMON_PAGINATION_KEY st = None
   ∨ ∃ l p, loadPokemonList st = Some l ∧ loadPaginationState st = Some p
            ∧ 5 * 60 * 1000 ≤ now - lastFetchTime p) →
  let w' := mountEffect now (initialState, st) in
  w'.1 = freshStart
  ∧ currentOffset w'.1 = 0 ∧ querySkip w'.1 = false ∧ isInitialLoading w'.1 = false
  ∧ (is_Some (loadItem POKEMON_KEY st) → is_Some (loadItem POKEMON_PAGINATION_KEY st) →
       w'.2 = clearPokemonData st
       ∧ items w'.2 !! POKEMON_KEY = None
       ∧ items w'.2 !! POKEMON_PAGINATION_KEY = None)
  ∧ (loadItem POKEMON_KEY st = None ∨ loadItem POKEMON_PAGINATION_KEY st = None →
     w'.2 = st).
Proof.
  intros H. unfold mountEffect.
  rewrite loadPokemonList_loadItem, loadPaginationState_loadItem in *.
  destruct (loadItem POKEMON_KEY st) as [jl|] eqn:Hjl;
    destruct (loadItem POKEMON_PAGINATION_KEY st) as [jp|] eqn:Hjp.
  - destruct H as [H | [H | (l & p & Hl & Hp & Hstale)]]; try done.
    rewrite Hl, Hp.
    assert ((now - lastFetchTime p <? CACHE_DURATION) = false) as ->.
    { apply Z.ltb_ge. unfold CACHE_DURATION. lia. }
    simpl. split_and!; try done.
    + intros _ _. rewrite clearPokemonData_accessible.
      * simpl. split_and!; [done | |].
        -- rewrite lookup_delete_ne by done. apply lookup_delete_eq.
        -- apply lookup_delete_eq.
      * unfold loadItem, getItem in Hjl. by destruct (accessible st).
    + intros [? | ?]; done.
  - simpl. destruct (asPokemonList jl);
      split_and!; try done; try (intros _ [? ?]; done).
  - simpl. split_and!; try done; try (intros [? ?]; done).
  - simpl. split_and!; try done; try (intros [? ?]; done).
Qed.

(** The amended C6 at a cache written ten minutes before the mount. *)
Lemma mount_without_fresh_cache_witness :
  let now := 1000 + 10 * 60 * 1000 in
  let st := Samples.firstPageCache in
  let w' := mountEffect now (initialState, st) in
  w'.1 = freshStart
  ∧ currentOffset w'.1 = 0 ∧ querySkip w'.1 = false ∧ isInitialLoading w'.1 = false
  ∧ (is_Some (loadItem POKEMON_KEY st) → is_Some (loadItem POKEMON_PAGINATION_KEY st) →
       w'.2 = clearPokemonData st
       ∧ items w'.2 !! POKEMON_KEY = None
       ∧ items w'.2 !! POKEMON_PAGINATION_KEY = None)
  ∧ (loadItem POKEMON_KEY st = None ∨ loadItem POKEMON_PAGINATION_KEY st = None →
     w'.2 = st).
Proof.
  apply (mount_without_fresh_cache (1000 + 10 * 60 * 1000) Samples.firstPageCache).
  right. right. exists [Samples.cached 1 "bulbasaur"; Samples.cached 2 "ivysaur"],
    Samples.firstPageState.
  split_and!.
  - vm_compute. reflexivity.
  - vm_compute. reflexivity.
  - vm_compute. discriminate.
Defined.

(** C6 as stated fails: a store holds a pagination state written ten
    minutes ago and no list; the cache is absent, the entry is stale, and
    after the mount effect the entry is still in the store. *)
Lemma orphan_cache_entry_is_not_cleared :
  let now := 1000 + 10 * 60 * 1000 in
  let st := Samples.orphanCache in
  let w' := mountEffect now (initialState, st) in
  loadPokemonList st = None
  ∧ loadPaginationState st = Some Samples.firstPageState
  ∧ 5 * 60 * 1000 ≤ now - lastFetchTime Samples.firstPageState
  ∧ getItem POKEMON_PAGINATION_KEY w'.2
    = Normal (Some (paginationStateText Samples.firstPageState))
  ∧ items w'.2 !! POKEMON_PAGINATION_KEY ≠ None.
Proof.
  vm_compute. split_and!; try reflexivity; discriminate.
Qed.


(** ** The pagination state through the store *)

Lemma setItem_accepts (st : Storage) (k v : string) :
  accepts st k v →
  setItem k v st
  = Normal {| items := <[k := v]> (items st); quota := quota st; accessible := true |}.
Proof.
  intros [Ha Hq]. unfold setItem. rewrite Ha.
  by apply Nat.leb_le in Hq as ->.
Qed.

Lemma setItem_refused (st : Storage) (k v : string) :
  ¬ accepts st k v → setItem k v st = Throws.
Proof.
  intros Hn. unfold setItem. destruct (accessible st) eqn:Ha; [|done].
  destruct (Nat.leb_spec (used (<[k := v]> (items st))) (quota st)); [|done].
  destruct Hn. by split.
Qed.

(** C9, as amended: for every pagination state [s], when the store takes
    the write, [savePaginationState s] followed by [loadPaginationState]
    on the store as the write left it returns [s]; the value goes through
    [JSON.stringify], the key [pokemon_pagination] and [JSON.parse]. *)
Theorem save_then_load_pagination_state (s : PaginationState) (st : Storage) :
  accepts st POKEMON_PAGINATION_KEY (paginationStateText s) →
  let st' := savePaginationState s st in
  getItem POKEMON_PAGINATION_KEY st' = Normal (Some (paginationStateText s))
  ∧ loadPaginationState st' = Some s.
Proof.
  intros Hacc st'. subst st'. unfold savePaginationState.
  rewrite setItem_accepts by done.
  rewrite loadPaginationState_unfold. unfold getItem. simpl.
  rewrite lookup_insert_eq. split; [done|].
  apply asPaginationState_parse.
Qed.

Lemma save_then_load_pagination_state_witness :
  let st' := savePaginationState Samples.secondPageState Samples.firstPageCache in
  getItem POKEMON_PAGINATION_KEY st'
  = Normal (Some (paginationStateText Samples.secondPageState))
  ∧ loadPaginationState st' = Some Samples.secondPageState.
Proof.
  apply (save_then_load_pagination_state Samples.secondPageState Samples.firstPageCache).
  split.
  - reflexivity.
  - apply Nat.leb_le. vm_compute. reflexivity.
Defined.

(** C9 as stated fails: a store at its quota refuses the write; the save
    swallows the error, and the load returns the state that was there
    before, or nothing when the store is empty or may not be accessed. *)
Lemma refused_write_is_not_read_back :
  loadPaginationState (savePaginationState Samples.secondPageState Samples.tightCache)
  = Some Samples.firstPageState
  ∧ Samples.firstPageState ≠ Samples.secondPageState
  ∧ loadPaginationState (savePaginationState Samples.secondPageState Samples.full) = None
  ∧ loadPaginationState (savePaginationState Samples.secondPageState Samples.blocked) = None.
Proof.
  split_and!; [by vm_compute | discriminate | by vm_compute | by vm_compute].
Qed.

(** ** The theorems at sample inputs *)

(** C3 at the page [ivysaur, venusaur], settled at offset 20 over
    [bulbasaur, ivysaur]. *)
Lemma append_keeps_prefix_and_adds_unseen_witness :
  let s := Samples.afterFirstPage in
  let p := Samples.overlappingPage in
  let prev := allPokemon s in
  let new := allPokemon (UsePokemonList.queryResultEffect (settled p) 2000 (s, Samples.roomy)).1 in
  (∀ (i : nat) (e : CachedPokemon), prev !! i = Some e → new !! i = Some e)
  ∧ ∃ added : list CachedPokemon,
      new = prev ++ added
      ∧ added = filter (fun x => id x ∉ ids prev) (pageItems p)
      ∧ added `sublist_of` pageItems p
      ∧ ∀ x, x ∈ added ↔ x ∈ pageItems p ∧ id x ∉ ids prev.
Proof.
  apply (append_keeps_prefix_and_adds_unseen
           (settled Samples.overlappingPage) Samples.overlappingPage 2000
           Samples.afterFirstPage Samples.roomy).
  - reflexivity.
  - reflexivity.
  - reflexivity.
  - reflexivity.
Defined.

(** C4 at the first page, settled at offset 0 over a list that holds
    venusaur. *)
Lemma offset_zero_replaces_list_witness :
  let s := setAllPokemon [Samples.cached 3 "venusaur"] initialState in
  let p := Samples.firstPage in
  let new := allPokemon (UsePokemonList.queryResultEffect (settled p) 1000 (s, Samples.roomy)).1 in
  new = (fun r =>
           let parts := split "/" (Api.url r) in
           {| id := parseInt (index parts (Z.of_nat (length parts) - 2));
              name := Api.name r |}) <$> Api.results p
  ∧ (∀ r base n,
       r ∈ Api.results p →
       toNumber n = Num n →
       Api.url r = base +:+ String "/" (JSON.integerText n +:+ String "/" EmptyString) →
       {| id := Num n; name := Api.name r |} ∈ new)
  ∧ ∀ e, e ∈ allPokemon s → id e ∉ ids (pageItems p) → id e ∉ ids new.
Proof.
  apply (offset_zero_replaces_list
           (settled Samples.firstPage) Samples.firstPage 1000
           (setAllPokemon [Samples.cached 3 "venusaur"] initialState) Samples.roomy).
  - reflexivity.
  - reflexivity.
  - reflexivity.
  - reflexivity.
Defined.

(** C7 at a coordinator that is loading more already. *)
Lemma loadMore_guarded_is_noop_witness :
  loadMoreData (settled Samples.firstPage) Samples.afterFirstPage = Samples.afterFirstPage.
Proof.
  apply (loadMore_guarded_is_noop (settled Samples.firstPage) Samples.afterFirstPage).
  right. left. reflexivity.
Defined.

(** C8 at a failure of the fetch of the second page. *)
Lemma failure_closes_gate_and_retry_goes_through_loadMore_witness :
  let q := failed (Some Samples.firstPage) false in
  let s := Samples.afterFirstPage in
  let s1 := queryErrorEffect q s in
  s1 = {| allPokemon := allPokemon s; paginationState := paginationState s;
          currentOffset := currentOffset s; skipQuery := true;
          isInitialLoading := isInitialLoading s;
          error := Some "Failed to fetch Pokemon data";
          isLoadingMore := false |}
  ∧ querySkip s1 = true
  ∧ (∀ q' now st,
       skipQuery (queryErrorEffect q' s1) = true
       ∧ skipQuery (UsePokemonList.queryResultEffect q' now (s1, st)).1 = true)
  ∧ (∀ q' s2,
       handleRetryLoadMore q' s2 = loadMoreData q' (setError None s2)
       ∧ error (handleRetryLoadMore q' s2) = None
       ∧ (isFetching q' = true ∨ isLoadingMore s2 = true
          ∨ hasMore (paginationState s2) = false
          ∨ skipQuery s2 = false ∨ isInitialLoading s2 = true →
          handleRetryLoadMore q' s2 = setError None s2)).
Proof.
  apply (failure_closes_gate_and_retry_goes_through_loadMore
           (failed (Some Samples.firstPage) false) Samples.afterFirstPage).
  reflexivity.
Defined.

(** The scenarios of the specification, run on the hook. *)

(** Scenario A: an empty cache, a first page with bulbasaur and ivysaur
    and a next page; the pagination state counts two items and the cache
    is written. *)
Example scenario_first_page :
  let w := mountEffect 1000 (initialState, Samples.roomy) in
  let w' := UsePokemonList.queryResultEffect (settled Samples.firstPage) 1000 w in
  w.1 = freshStart
  ∧ allPokemon w'.1 = [Samples.cached 1 "bulbasaur"; Samples.cached 2 "ivysaur"]
  ∧ paginationState w'.1 = Samples.firstPageState
  ∧ w'.2 = Samples.firstPageCache
  ∧ loadPokemonList w'.2 = Some (allPokemon w'.1)
  ∧ loadPaginationState w'.2 = Some Samples.firstPageState.
Proof. split_and!; by vm_compute. Qed.

(** Scenario B: the overlapping page gives bulbasaur, ivysaur, venusaur. *)
Example scenario_overlapping_page :
  let w' := UsePokemonList.queryResultEffect (settled Samples.overlappingPage) 2000
              (Samples.afterFirstPage, Samples.firstPageCache) in
  ids (allPokemon w'.1) = [Num 1; Num 2; Num 3]
  ∧ totalLoaded (paginationState w'.1) = 3
  ∧ currentPage (paginationState w'.1) = 1.
Proof. split_and!; by vm_compute. Qed.

(** Scenario E: a refresh empties the list and the cache and opens the
    gate at offset 0. *)
Example scenario_refresh :
  let w' := handleRefresh (Samples.afterFirstPage, Samples.firstPageCache) in
  w'.1 = freshStart
  ∧ loadPokemonList w'.2 = None ∧ loadPaginationState w'.2 = None.
Proof. split_and!; by vm_compute. Qed.

Example split_url :
  split "/" "https://pokeapi.co/api/v2/pokemon/25/"
  = ["https:"; EmptyString; "pokeapi.co"; "api"; "v2"; "pokemon"; "25"; EmptyString].
Proof. reflexivity. Qed.

Example parseInt_samples :
  parseInt (Some "25") = Num 25
  ∧ parseInt (Some "  -7up") = Num (-7)
  ∧ parseInt (Some "0x1f") = Num 31
  ∧ parseInt (Some "pokemon") = NaN
  ∧ parseInt (Some EmptyString) = NaN
  ∧ parseInt None = NaN.
Proof. split_and!; reflexivity. Qed.

(** Past 2^53 [parseInt] gives the nearest double, and an infinity for an
    integer of 310 digits; it strips a no-break space (U+00A0) and a byte
    order mark (U+FEFF) as it strips a space; it stops at the [e] of an
    exponent. *)
Example parseInt_beyond_the_integers :
  parseInt (Some "9007199254740993") = Num 9007199254740992
  ∧ parseInt (Some "-9007199254740995") = Num (-9007199254740996)
  ∧ parseInt (Some (JSON.integerText (10 ^ 309))) = Infinity false
  ∧ parseInt (Some (String (ascii_of_N 194) (String (ascii_of_N 160) "42"))) = Num 42
  ∧ parseInt (Some (String (ascii_of_N 239) (String (ascii_of_N 187)
                      (String (ascii_of_N 191) "42")))) = Num 42
  ∧ parseInt (Some "1e+21") = Num 1.
Proof. split_and!; by vm_compute. Qed.

(** A url without a slash has no second-to-last part; the id is [NaN]. *)
Example malformed_url_has_NaN_id :
  toCachedPokemon (Samples.resource "missingno" "about:blank")
  = {| id := NaN; name := "missingno" |}.
Proof. reflexivity. Qed.

(** * Further properties *)

(** ** Strings through [JSON.stringify] and [JSON.parse] *)

Section QuoteReadBack.
Import JS.JSON Parsed.

Lemma unitsToString_low (u : Z) (us : list unit16) :
  isHighSurrogate u = false →
  unitsToString (Escaped u :: us) = utf8 u +:+ unitsToString us.
Proof.
  intros Hu. simpl. rewrite Hu. by destruct us as [|[c|lo] us].
Qed.

(** The units that the escape of one character reads back to. *)
Lemma readUnits_quoteChar (c : ascii) (t : string) (us : list unit16) (r : string) :
  readUnits t = Some (us, r) →
  ∃ u, readUnits (quoteChar c +:+ t) = Some (u :: us, r)
       ∧ unitsToString (u :: us) = String c (unitsToString us).
Proof.
  intros Ht.
  destruct c as [[] [] [] [] [] [] [] []];
    match goal with |- context [quoteChar ?c] =>
      let v := eval vm_compute in (quoteChar c) in change (quoteChar c) with v
    end;
    rewrite ?append_cons, ?append_nil;
    (eexists; split;
     [simpl; rewrite Ht; reflexivity
     | first [reflexivity
             | rewrite unitsToString_low by (vm_compute; reflexivity);
               reflexivity]]).
Qed.

Lemma readUnits_quoteChars (s r : string) :
  ∃ us, readUnits (quoteChars s +:+ String dquote r) = Some (us, r)
        ∧ unitsToString us = s.
Proof.
  induction s as [|c s IH].
  - exists []. by rewrite append_nil.
  - destruct IH as (us & Hus & Hback).
    destruct (readUnits_quoteChar c _ us r Hus) as (u & Hu & Hstr).
    exists (u :: us). simpl quoteChars. rewrite append_assoc.
    split; [done | by rewrite Hstr, Hback].
Qed.

(** [JSON.parse] reads the quoted form of any string back as that
    string. *)
Lemma readString_quoteChars (s r : string) :
  readString (quoteChars s +:+ String dquote r) = Some (s, r).
Proof.
  unfold readString.
  by destruct (readUnits_quoteChars s r) as (us & -> & ->).
Qed.

Lemma readValue_quote (fuel : nat) (s r : string) :
  readValue (S fuel) (quote s +:+ r) = Some (JStr s, r).
Proof.
  rewrite quote_head.
  change (readValue (S fuel) (String dquote ?X))
    with (match readString X with
          | Some (str, r') => Some (JStr str, r')
          | None => None
          end).
  by rewrite readString_quoteChars.
Qed.

Lemma length_append (a b : string) :
  String.length (a +:+ b) = (String.length a + String.length b)%nat.
Proof.
  induction a as [|c a IH]; [done|]. rewrite append_cons. simpl. by rewrite IH.
Qed.

(** The text of a cached item, member by member. *)
Lemma pokemonText_members (i : number) (nm r : string) :
  pokemonText {| id := i; name := nm |} +:+ r
  = String "{"
      (quote "id" +:+ ":" +:+ numberText i +:+ String ","
      (quote "name" +:+ ":" +:+ quote nm +:+ String "}" r)).
Proof.
  unfold pokemonText, objectText.
  cbn [fmap list_fmap commaSeparated fst snd id name].
  by rewrite !append_assoc, !append_cons, !append_nil.
Qed.

Lemma skipWS_numberText (i : number) (rest : string) :
  skipWS (numberText i +:+ rest) = numberText i +:+ rest.
Proof. destruct i as [|z|b|]; try done. apply skipWS_integerText. Qed.

Lemma readValue_numberText (fuel : nat) (i : number) (c : ascii) (r : string) :
  delimiter c = true →
  readValue (S fuel) (numberText i +:+ String c r) = Some (idJson i, String c r).
Proof.
  intros Hc. destruct i as [|z|b|]; try done. by apply readValue_integerText.
Qed.

Lemma readValue_pokemonText_json (fuel : nat) (p : CachedPokemon) (r : string) :
  readValue (4 + fuel) (pokemonText p +:+ r) = Some (pokemonJson p, r).
Proof.
  destruct p as [i nm]. rewrite pokemonText_members.
  change (4 + fuel)%nat with (S (S (S (S fuel)))).
  rewrite readValue_object.
  erewrite (readMembers_member _ "id");
    [| done | apply skipWS_numberText | by apply readValue_numberText | done].
  rewrite Ascii.eqb_refl, skipWS_quote.
  erewrite (readMembers_member _ "name");
    [| done | apply skipWS_quote | apply readValue_quote | done].
  reflexivity.
Qed.

(** Read at its declared type, the value of the text of an item is the
    item as [stored]; an item with an integer id is stored as it is. *)
Lemma asCachedPokemon_pokemonJson (p : CachedPokemon) :
  asCachedPokemon (pokemonJson p) = Some (stored p).
Proof.
  destruct p as [[|z|b|] nm]; try done.
  unfold asCachedPokemon, pokemonJson, stored. cbn -[integerValue].
  by rewrite integerValue_0.
Qed.

Lemma stored_integer (p : CachedPokemon) :
  isInteger (id p) = true → stored p = p.
Proof. by destruct p as [[|z|b|] nm]. Qed.

Lemma stored_integers (l : list CachedPokemon) :
  Forall (fun p => isInteger (id p) = true) l → stored <$> l = l.
Proof.
  induction 1 as [|p l Hp _ IH]; [done|].
  by rewrite fmap_cons, stored_integer, IH.
Qed.

Lemma asPokemonList_pokemonJson (l : list CachedPokemon) :
  asPokemonList (JArr (pokemonJson <$> l)) = Some (stored <$> l).
Proof.
  unfold asPokemonList. apply mapM_Some.
  induction l as [|p l IH]; [constructor|].
  rewrite !fmap_cons. constructor; [apply asCachedPokemon_pokemonJson | done].
Qed.

Lemma pokemonText_head (p : CachedPokemon) (r : string) :
  ∃ t, pokemonText p +:+ r = String "{" t.
Proof.
  unfold pokemonText, objectText. rewrite append_cons, append_nil.
  by eexists.
Qed.

Lemma commaSeparated_cons (t t' : string) (rest : list string) :
  commaSeparated (t :: t' :: rest) = t +:+ "," +:+ commaSeparated (t' :: rest).
Proof. reflexivity. Qed.

Lemma pokemonTexts_head (p : CachedPokemon) (l : list CachedPokemon) (r : string) :
  ∃ t, commaSeparated (pokemonText <$> (p :: l)) +:+ r = String "{" t.
Proof.
  rewrite fmap_cons. destruct l as [|p' l].
  - apply pokemonText_head.
  - rewrite fmap_cons, commaSeparated_cons, append_assoc.
    apply pokemonText_head.
Qed.

Lemma skipWS_pokemonTexts (p : CachedPokemon) (l : list CachedPokemon) (r : string) :
  skipWS (commaSeparated (pokemonText <$> (p :: l)) +:+ r)
  = commaSeparated (pokemonText <$> (p :: l)) +:+ r.
Proof. by destruct (pokemonTexts_head p l r) as [t ->]. Qed.

(** The elements of the text of a list, read with enough fuel. *)
Lemma readElements_pokemonTexts
    (l : list CachedPokemon) (p : CachedPokemon) (r : string) (fuel : nat) :
  readElements (length l + 5 + fuel)
    (commaSeparated (pokemonText <$> (p :: l)) +:+ String "]" r)
  = Some (pokemonJson <$> (p :: l), r).
Proof.
  revert p. induction l as [|p' l IH]; intros p.
  - change (length [] + 5 + fuel)%nat with (S (4 + fuel)).
    cbn [fmap list_fmap commaSeparated readElements].
    by rewrite readValue_pokemonText_json.
  - change (length (p' :: l) + 5 + fuel)%nat with (S (length l + 5 + fuel)).
    rewrite (fmap_cons pokemonText p), (fmap_cons pokemonText p' l).
    rewrite commaSeparated_cons, <- (fmap_cons pokemonText p' l).
    rewrite !append_assoc, append_cons, append_nil.
    cbn [readElements].
    replace (length l + 5 + fuel)%nat with (4 + (length l + 1 + fuel))%nat at 1 by lia.
    rewrite readValue_pokemonText_json.
    change (skipWS (String "," ?X)) with (String ","%char X). cbv beta iota.
    rewrite Ascii.eqb_refl.
    rewrite skipWS_pokemonTexts, IH. reflexivity.
Qed.

Lemma pokemonTexts_length (p : CachedPokemon) (l : list CachedPokemon) :
  (length (p :: l) ≤ String.length (commaSeparated (pokemonText <$> (p :: l))))%nat.
Proof.
  revert p. induction l as [|p' l IH]; intros p.
  - destruct (pokemonTexts_head p [] EmptyString) as [t Ht].
    rewrite <- (append_nil (commaSeparated _)) in Ht.
    assert (Hr : ∀ a, a +:+ EmptyString = a).
    { intros a. induction a as [|c a IHa]; [done|]. by rewrite append_cons, IHa. }
    rewrite append_nil, Hr in Ht. rewrite Ht. simpl. lia.
  - rewrite (fmap_cons pokemonText p), (fmap_cons pokemonText p' l).
    rewrite commaSeparated_cons, <- (fmap_cons pokemonText p' l).
    rewrite !length_append. specialize (IH p'). simpl in *. lia.
Qed.

(** [JSON.parse(JSON.stringify(l))] for a list [l] of cached items. *)
Lemma parse_pokemonListText (l : list CachedPokemon) :
  parse (pokemonListText l) = Normal (JArr (pokemonJson <$> l)).
Proof.
  destruct l as [|p l]; [done|].
  unfold parse, pokemonListText, arrayText.
  rewrite !append_cons, !append_nil.
  pose proof (pokemonTexts_length p l) as Hlen.
  set (cs := commaSeparated (pokemonText <$> (p :: l))) in *.
  change (String.length (String "[" (cs +:+ "]")))
    with (S (String.length (cs +:+ "]"))).
  rewrite length_append.
  replace (2 * S (String.length cs + String.length "]") + 2)%nat
    with (S (length l + 5 + (2 * String.length cs - length l)))%nat
    by (simpl in *; lia).
  change (skipWS (String "[" ?X)) with (String "["%char X).
  subst cs.
  destruct (pokemonTexts_head p l "]") as [t Ht].
  rewrite Ht. simpl. rewrite <- Ht.
  by rewrite readElements_pokemonTexts.
Qed.

Lemma loadPokemonList_stored (st : Storage) (l : list CachedPokemon) :
  getItem POKEMON_KEY st = Normal (Some (pokemonListText l)) →
  loadPokemonList st = Some (stored <$> l).
Proof.
  intros Hget. rewrite loadPokemonList_unfold, Hget, parse_pokemonListText.
  apply asPokemonList_pokemonJson.
Qed.

Lemma getItem_savePokemonList (l : list CachedPokemon) (st : Storage) :
  accepts st POKEMON_KEY (pokemonListText l) →
  getItem POKEMON_KEY (savePokemonList l st) = Normal (Some (pokemonListText l)).
Proof.
  intros Hacc. unfold savePokemonList. rewrite setItem_accepts by done.
  unfold getItem. simpl. by rewrite lookup_insert_eq.
Qed.

Lemma loadPaginationState_stored (st : Storage) (s : PaginationState) :
  getItem POKEMON_PAGINATION_KEY st = Normal (Some (paginationStateText s)) →
  loadPaginationState st = Some s.
Proof.
  intros Hget. rewrite loadPaginationState_unfold, Hget.
  apply asPaginationState_parse.
Qed.
End QuoteReadBack.

(** X1: for every list of cached items with integer ids, when the store
    takes the write, [savePokemonList] followed by [loadPokemonList]
    returns the list, whatever characters the names hold. *)
Theorem save_then_load_pokemon_list (l : list CachedPokemon) (st : Storage) :
  Forall (fun p => isInteger (id p) = true) l →
  accepts st POKEMON_KEY (pokemonListText l) →
  loadPokemonList (savePokemonList l st) = Some l.
Proof.
  intros Hl Hacc.
  rewrite (loadPokemonList_stored _ l) by (by apply getItem_savePokemonList).
  by rewrite stored_integers.
Qed.

Lemma save_then_load_pokemon_list_witness :
  loadPokemonList
    (savePokemonList [Samples.cached 1 "bulbasaur"; Samples.cached 25 "mr. mime \ jr"]
       Samples.roomy)
  = Some [Samples.cached 1 "bulbasaur"; Samples.cached 25 "mr. mime \ jr"].
Proof.
  apply (save_then_load_pokemon_list
           [Samples.cached 1 "bulbasaur"; Samples.cached 25 "mr. mime \ jr"]
           Samples.roomy).
  - repeat constructor; discriminate.
  - split; [reflexivity | apply Nat.leb_le; vm_compute; reflexivity].
Defined.

(** ** The two keys of the store *)

Lemma save_items (k v : string) (st : Storage) :
  match setItem k v st with Normal st' => st' | Throws => st end = st
  ∨ (accepts st k v
     ∧ match setItem k v st with Normal st' => st' | Throws => st end
       = {| items := <[k := v]> (items st); quota := quota st; accessible := true |}).
Proof.
  unfold setItem. destruct (accessible st) eqn:Ha; [|by left].
  destruct (Nat.leb_spec (used (<[k := v]> (items st))) (quota st)); [|by left].
  right. by split.
Qed.

Lemma getItem_after_save (k k' v : string) (st : Storage) :
  k ≠ k' →
  getItem k' (match setItem k v st with Normal st' => st' | Throws => st end)
  = getItem k' st.
Proof.
  intros Hne. destruct (save_items k v st) as [-> | [[Ha _] ->]]; [done|].
  unfold getItem. simpl. rewrite Ha. by rewrite lookup_insert_ne.
Qed.

(** X2: a save touches its own key only: after [savePaginationState] the
    list loads as before, after [savePokemonList] the pagination state
    loads as before, whether the store took the write or refused it. *)
Theorem saves_keep_the_other_entry
    (l : list CachedPokemon) (s : PaginationState) (st : Storage) :
  loadPokemonList (savePaginationState s st) = loadPokemonList st
  ∧ loadPaginationState (savePokemonList l st) = loadPaginationState st.
Proof.
  rewrite !loadPokemonList_unfold, !loadPaginationState_unfold.
  unfold savePaginationState, savePokemonList.
  split; by rewrite getItem_after_save.
Qed.

Lemma clearPokemonData_loads (st : Storage) :
  loadPokemonList (clearPokemonData st) = None
  ∧ loadPaginationState (clearPokemonData st) = None
  ∧ (∀ k, k ≠ POKEMON_KEY → k ≠ POKEMON_PAGINATION_KEY →
          items (clearPokemonData st) !! k = items st !! k)
  ∧ clearPokemonData (clearPokemonData st) = clearPokemonData st.
Proof.
  destruct (accessible st) eqn:Ha.
  - rewrite !clearPokemonData_accessible by done. simpl.
    rewrite loadPokemonList_unfold, loadPaginationState_unfold. unfold getItem. simpl.
    rewrite lookup_delete_eq, lookup_delete_ne, lookup_delete_eq by done.
    split_and!; [done | done | |].
    + intros k H1 H2. by rewrite !lookup_delete_ne.
    + f_equal. apply map_eq. intros k.
      rewrite !lookup_delete. repeat case_decide; done.
  - rewrite !clearPokemonData_inaccessible by done.
    rewrite loadPokemonList_unfold, loadPaginationState_unfold. unfold getItem. by rewrite Ha.
Qed.

(** X3: after [clearPokemonData] both loads return [undefined], in every
    store; clearing leaves every other key as it is, and clearing twice
    is clearing once. *)
Theorem clear_then_load (st : Storage) :
  loadPokemonList (clearPokemonData st) = None
  ∧ loadPaginationState (clearPokemonData st) = None
  ∧ (∀ k, k ≠ POKEMON_KEY → k ≠ POKEMON_PAGINATION_KEY →
          items (clearPokemonData st) !! k = items st !! k)
  ∧ clearPokemonData (clearPokemonData st) = clearPokemonData st.
Proof. apply clearPokemonData_loads. Qed.

(** ** What a settled fetch leaves behind *)

Section Settled.
Context (p : Api.PokemonListResponse) (now : Z) (s : State) (st : Storage).

(** The state and the store after the hook has settled a fetch. *)
Lemma hook_settled_world :
  let w' := UsePokemonList.queryResultEffect (settled p) now (s, st) in
  w'.1 = {| allPokemon := allPokemon w'.1;
            paginationState :=
              {| currentPage := if currentOffset s =? 0 then 0 else currentOffset s / 20;
                 totalLoaded := Z.of_nat (length (allPokemon w'.1));
                 hasMore := bool_decide (Api.next p ≠ None);
                 lastFetchTime := now |};
            currentOffset := currentOffset s; skipQuery := true;
            isInitialLoading := isInitialLoading s; error := None;
            isLoadingMore := false |}
  ∧ w'.2 = savePaginationState (paginationState w'.1)
             (savePokemonList (allPokemon w'.1) st).
Proof.
  unfold UsePokemonList.queryResultEffect, settled; simpl.
  destruct (currentOffset s =? 0); simpl; [done|].
  rewrite length_app, Nat2Z.inj_add. done.
Qed.

End Settled.

Lemma floor_of_aligned (k : Z) : (if 20 * k =? 0 then 0 else 20 * k / 20) = k.
Proof.
  destruct (Z.eqb_spec (20 * k) 0) as [H|H]; [lia|].
  rewrite Z.mul_comm. by apply Z.div_mul.
Qed.

(** X4: what the hook persists when a fetch settles is what it restores on
    the next mount.  After a successful fetch has settled at an offset
    [20 * k], with integer ids and both writes taken by the store, a mount
    within five minutes gives the same list, the same pagination state and
    the same offset, with the gate closed. *)
Theorem settled_fetch_is_restored_on_mount
    (q : Query) (p : Api.PokemonListResponse) (now now' k : Z)
    (s : State) (st : Storage) :
  data q = Some p → isFetching q = false → queryError q = false →
  currentOffset s = 20 * k →
  let w' := UsePokemonList.queryResultEffect q now (s, st) in
  Forall (fun x => isInteger (id x) = true) (allPokemon w'.1) →
  accepts st POKEMON_KEY (pokemonListText (allPokemon w'.1)) →
  accepts (savePokemonList (allPokemon w'.1) st)
    POKEMON_PAGINATION_KEY (paginationStateText (paginationState w'.1)) →
  now' - now < 5 * 60 * 1000 →
  let w'' := mountEffect now' (initialState, w'.2) in
  w''.1 = {| allPokemon := allPokemon w'.1;
             paginationState := paginationState w'.1;
             currentOffset := currentOffset s; skipQuery := true;
             isInitialLoading := false; error := None;
             isLoadingMore := false |}
  ∧ w''.2 = w'.2.
Proof.
  intros Hd Hf He Hoff w'. subst w'. rewrite (settled_query q p Hd Hf He).
  destruct (hook_settled_world p now s st) as [Hs Hst]. cbv zeta in Hs, Hst.
  set (w' := UsePokemonList.queryResultEffect (settled p) now (s, st)) in *.
  intros Hids Hacc1 Hacc2 Hfresh w''. subst w''.
  set (l := allPokemon w'.1) in *. set (ps := paginationState w'.1) in *.
  assert (Hps : ps = {| currentPage := k;
                        totalLoaded := Z.of_nat (length l);
                        hasMore := bool_decide (Api.next p ≠ None);
                        lastFetchTime := now |}).
  { subst ps. rewrite Hs. simpl. by rewrite Hoff, floor_of_aligned. }
  assert (Hl : loadPokemonList w'.2 = Some l).
  { rewrite Hst. rewrite loadPokemonList_unfold. unfold savePaginationState.
    rewrite getItem_after_save by done.
    rewrite <- loadPokemonList_unfold.
    rewrite (loadPokemonList_stored _ l) by (by apply getItem_savePokemonList).
    by rewrite stored_integers. }
  assert (Hp : loadPaginationState w'.2 = Some ps).
  { rewrite Hst. apply loadPaginationState_stored.
    unfold savePaginationState. rewrite setItem_accepts by done.
    unfold getItem. simpl. by rewrite lookup_insert_eq. }
  unfold mountEffect. rewrite Hl, Hp.
  assert ((now' - lastFetchTime ps <? CACHE_DURATION) = true) as ->.
  { rewrite Hps. simpl. apply Z.ltb_lt. unfold CACHE_DURATION. lia. }
  simpl. split; [|done].
  unfold setIsInitialLoading, setCurrentOffset, setPaginationState, setAllPokemon; simpl.
  f_equal. rewrite Hps. simpl. unfold ITEMS_PER_PAGE. lia.
Qed.

Lemma settled_fetch_is_restored_on_mount_witness :
  let w' := UsePokemonList.queryResultEffect (settled Samples.overlappingPage) 2000
              (Samples.afterFirstPage, Samples.firstPageCache) in
  let w'' := mountEffect (2000 + 60 * 1000) (initialState, w'.2) in
  w''.1 = {| allPokemon := allPokemon w'.1;
             paginationState := paginationState w'.1;
             currentOffset := currentOffset Samples.afterFirstPage; skipQuery := true;
             isInitialLoading := false; error := None;
             isLoadingMore := false |}
  ∧ w''.2 = w'.2.
Proof.
  apply (settled_fetch_is_restored_on_mount
           (settled Samples.overlappingPage) Samples.overlappingPage
           2000 (2000 + 60 * 1000) 1 Samples.afterFirstPage Samples.firstPageCache).
  - reflexivity.
  - reflexivity.
  - reflexivity.
  - reflexivity.
  - vm_compute. repeat constructor; discriminate.
  - split; [reflexivity | apply Nat.leb_le; vm_compute; reflexivity].
  - split; [reflexivity | apply Nat.leb_le; vm_compute; reflexivity].
  - reflexivity.
Defined.

Lemma unsettled_effects (q : Query) (now : Z) (w : World) :
  data q = None ∨ isFetching q = true ∨ queryError q = true →
  UsePokemonList.queryResultEffect q now w = w
  ∧ Home.queryResultEffect q now w = w.
Proof.
  destruct w as [s st].
  unfold UsePokemonList.queryResultEffect, Home.queryResultEffect.
  intros [H | [H | H]]; rewrite H; destruct (data q); simpl; try done.
  all: by destruct (isFetching q).
Qed.

(** A render either brings a settled fetch or it does not. *)
Lemma settled_or_not (q : Query) :
  (∃ p, q = settled p)
  ∨ (data q = None ∨ isFetching q = true ∨ queryError q = true).
Proof.
  destruct q as [[p|] [] []]; simpl; first [by (left; eexists) | eauto 6].
Qed.

(** X5: a render in which no fetch has settled with success, for want of
    data, or with a request in flight, or with an error, leaves the state
    and the store as they are, in the hook and in the page. *)
Theorem unsettled_query_changes_nothing (q : Query) (now : Z) (w : World) :
  data q = None ∨ isFetching q = true ∨ queryError q = true →
  UsePokemonList.queryResultEffect q now w = w
  ∧ Home.queryResultEffect q now w = w.
Proof. apply unsettled_effects. Qed.

Lemma unsettled_query_changes_nothing_witness :
  UsePokemonList.queryResultEffect
    {| data := Some Samples.firstPage; queryError := false; isFetching := true |}
    2000 (Samples.afterFirstPage, Samples.firstPageCache)
  = (Samples.afterFirstPage, Samples.firstPageCache)
  ∧ Home.queryResultEffect
    {| data := Some Samples.firstPage; queryError := false; isFetching := true |}
    2000 (Samples.afterFirstPage, Samples.firstPageCache)
  = (Samples.afterFirstPage, Samples.firstPageCache).
Proof.
  apply (unsettled_query_changes_nothing
           {| data := Some Samples.firstPage; queryError := false; isFetching := true |}
           2000 (Samples.afterFirstPage, Samples.firstPageCache)).
  right. left. reflexivity.
Defined.

(** ** What a merge does to the list *)

Lemma unseen_length (prev new : list CachedPokemon) :
  (length (unseen prev new) ≤ length new)%nat.
Proof. apply sublist_length, unseen_sublist. Qed.

Lemma merged_ids (prev new : list CachedPokemon) (i : number) :
  i ∈ ids (prev ++ unseen prev new) ↔ i ∈ ids prev ∨ i ∈ ids new.
Proof.
  unfold ids. rewrite fmap_app, elem_of_app. split.
  - intros [H | H]; [by left|]. right.
    apply list_elem_of_fmap in H as (x & -> & Hx).
    apply unseen_elem_of in Hx as [Hx _]. by apply list_elem_of_fmap_2.
  - intros [H | H]; [by left|].
    destruct (decide (i ∈ id <$> prev)) as [Hin | Hout]; [by left|]. right.
    apply list_elem_of_fmap in H as (x & -> & Hx).
    apply list_elem_of_fmap_2, unseen_elem_of. by split.
Qed.

Lemma unseen_again (prev new : list CachedPokemon) :
  unseen (prev ++ unseen prev new) new = [].
Proof.
  apply elem_of_nil_inv. intros x [Hx Hout]%unseen_elem_of.
  apply Hout, merged_ids. right. by apply list_elem_of_fmap_2.
Qed.

Lemma merged_list_facts (effect : Query → Z → World → World)
    (p : Api.PokemonListResponse) (now : Z) (s : State) (st : Storage) :
  merges_like_the_hook effect →
  currentOffset s ≠ 0 →
  let new := allPokemon (effect (settled p) now (s, st)).1 in
  (∀ i, i ∈ ids new ↔ i ∈ ids (allPokemon s) ∨ i ∈ ids (pageItems p))
  ∧ (length (allPokemon s) ≤ length new ≤ length (allPokemon s) + length (Api.results p))%nat.
Proof.
  intros Heff Hoff new.
  assert (Hnew : new = allPokemon s ++ unseen (allPokemon s) (pageItems p)).
  { subst new. rewrite Heff. by destruct (Z.eqb_spec (currentOffset s) 0). }
  rewrite Hnew. split; [intros i; apply merged_ids|].
  rewrite length_app. pose proof (unseen_length (allPokemon s) (pageItems p)) as Hlen.
  unfold pageItems in Hlen at 2. rewrite length_fmap in Hlen. lia.
Qed.

(** X6: when a successful fetch settles above offset 0, in the hook or in
    the page, the ids of the new list are the ids of the old list and the
    ids of the page, no more and no fewer; the list does not shrink and
    grows by the length of the page at most. *)
Theorem merge_is_union_of_ids
    (q : Query) (p : Api.PokemonListResponse) (now : Z) (s : State) (st : Storage) :
  data q = Some p → isFetching q = false → queryError q = false →
  currentOffset s ≠ 0 →
  let union (new : list CachedPokemon) :=
    (∀ i, i ∈ ids new ↔ i ∈ ids (allPokemon s) ∨ i ∈ ids (pageItems p))
    ∧ (length (allPokemon s) ≤ length new
       ≤ length (allPokemon s) + length (Api.results p))%nat in
  union (allPokemon (UsePokemonList.queryResultEffect q now (s, st)).1)
  ∧ union (allPokemon (Home.queryResultEffect q now (s, st)).1).
Proof.
  intros Hd Hf He Hoff union. subst union. rewrite (settled_query q p Hd Hf He).
  split; apply merged_list_facts; try done.
  - intros ? ? ? ?. apply hook_settled_list.
  - intros ? ? ? ?. apply home_settled_list.
Qed.

Lemma merge_is_union_of_ids_witness :
  let s := Samples.afterFirstPage in
  let p := Samples.overlappingPage in
  let union (new : list CachedPokemon) :=
    (∀ i, i ∈ ids new ↔ i ∈ ids (allPokemon s) ∨ i ∈ ids (pageItems p))
    ∧ (length (allPokemon s) ≤ length new
       ≤ length (allPokemon s) + length (Api.results p))%nat in
  union (allPokemon (UsePokemonList.queryResultEffect (settled p) 2000 (s, Samples.roomy)).1)
  ∧ union (allPokemon (Home.queryResultEffect (settled p) 2000 (s, Samples.roomy)).1).
Proof.
  apply (merge_is_union_of_ids (settled Samples.overlappingPage) Samples.overlappingPage
           2000 Samples.afterFirstPage Samples.roomy);
    [reflexivity | reflexivity | reflexivity | discriminate].
Defined.

(** X7: a page that settles a second time, at any offset, leaves the list
    as the first settlement made it, in the hook and in the page, and in
    the hook [totalLoaded] too. *)
Theorem second_settlement_adds_nothing
    (p : Api.PokemonListResponse) (now now' : Z) (w : World) :
  let hook1 := UsePokemonList.queryResultEffect (settled p) now w in
  let hook2 := UsePokemonList.queryResultEffect (settled p) now' hook1 in
  let home1 := Home.queryResultEffect (settled p) now w in
  let home2 := Home.queryResultEffect (settled p) now' home1 in
  allPokemon hook2.1 = allPokemon hook1.1
  ∧ totalLoaded (paginationState hook2.1) = totalLoaded (paginationState hook1.1)
  ∧ allPokemon home2.1 = allPokemon home1.1.
Proof.
  destruct w as [s st]. intros hook1 hook2 home1 home2.
  assert (Hlist : ∀ effect, merges_like_the_hook effect →
            (∀ w0, currentOffset (effect (settled p) now w0).1 = currentOffset w0.1) →
            allPokemon (effect (settled p) now' (effect (settled p) now (s, st))).1
            = allPokemon (effect (settled p) now (s, st)).1).
  { intros effect Heff Hoff.
    destruct (effect (settled p) now (s, st)) as [s1 st1] eqn:E1.
    rewrite Heff. pose proof (Hoff (s, st)) as Ho. rewrite E1 in Ho. simpl in Ho.
    pose proof (Heff p now s st) as H1. rewrite E1 in H1. simpl in H1. simpl.
    rewrite Ho. destruct (currentOffset s =? 0); [done|].
    by rewrite H1, unseen_again, app_nil_r. }
  assert (Hhook : allPokemon hook2.1 = allPokemon hook1.1).
  { apply Hlist; [intros ? ? ? ?; apply hook_settled_list|].
    intros [s0 st0]. destruct (hook_settled_world p now s0 st0) as [-> _]. done. }
  split_and!; [done | |].
  - subst hook2. destruct hook1 as [s1 st1] eqn:E.
    pose proof (hook_totalLoaded_is_length (settled p) p now' s1 st1
                  eq_refl eq_refl eq_refl) as H2.
    pose proof (hook_totalLoaded_is_length (settled p) p now s st
                  eq_refl eq_refl eq_refl) as H1.
    cbv zeta in H1, H2. fold hook1 in H1. rewrite E in H1.
    rewrite H2, H1. f_equal. f_equal. exact Hhook.
  - apply Hlist; [intros ? ? ? ?; apply home_settled_list|].
    intros [s0 st0]. unfold Home.queryResultEffect, settled. simpl.
    by destruct (currentOffset s0 =? 0).
Qed.

(** X20: a refresh leaves no cache behind.  After [handleRefresh], in
    every store, neither entry loads, and a mount over that store starts
    afresh at offset 0 with the gate open, whatever the time. *)
Theorem refresh_leaves_no_cache (w : World) (now : Z) :
  let w' := handleRefresh w in
  loadPokemonList w'.2 = None
  ∧ loadPaginationState w'.2 = None
  ∧ mountEffect now (initialState, w'.2) = (freshStart, w'.2).
Proof.
  destruct w as [s st]. simpl.
  destruct (clearPokemonData_loads st) as (Hl & Hp & _).
  split_and!; [done | done |]. unfold mountEffect. by rewrite Hl.
Qed.

(** ** Loading more, failing and retrying *)

Lemma loadMore_fired (q : Query) (seen pending : State) :
  loadMoreBody q seen pending = pending
  ∨ (isFetching q = false ∧ isLoadingMore seen = false
     ∧ hasMore (paginationState seen) = true
     ∧ skipQuery seen = true ∧ isInitialLoading seen = false
     ∧ loadMoreBody q seen pending
       = setSkipQuery false
           (setCurrentOffset (currentOffset seen + 20) (setIsLoadingMore true pending))).
Proof.
  unfold loadMoreBody.
  destruct (isFetching q), (isLoadingMore seen), (hasMore (paginationState seen)),
    (skipQuery seen), (isInitialLoading seen); simpl; auto.
  right. by split_and!.
Qed.

(** X8: [loadMoreData] advances by one page at most until a fetch
    settles.  Called twice from one render it queues the same offset
    twice; and once it has changed the state, a further call, from any
    later render, changes nothing. *)
Theorem loadMore_advances_once (q q' : Query) (s : State) :
  loadMoreData q s ≠ s →
  loadMoreBody q s (loadMoreData q s) = loadMoreData q s
  ∧ loadMoreData q' (loadMoreData q s) = loadMoreData q s
  ∧ currentOffset (loadMoreData q s) = currentOffset s + 20.
Proof.
  intros Hfired. unfold loadMoreData in *.
  destruct (loadMore_fired q s s) as [H | (H1 & H2 & H3 & H4 & H5 & H)]; [done|].
  split_and!.
  - destruct (loadMore_fired q s (loadMoreBody q s s)) as [Hn | (_ & _ & _ & _ & _ & Hy)];
      [done|]. rewrite Hy, H. reflexivity.
  - apply loadMore_blocked. right. left. by rewrite H.
  - by rewrite H.
Qed.

Lemma loadMore_advances_once_witness :
  let s := setIsLoadingMore false (setSkipQuery true Samples.afterFirstPage) in
  let q := settled Samples.firstPage in
  loadMoreBody q s (loadMoreData q s) = loadMoreData q s
  ∧ loadMoreData q (loadMoreData q s) = loadMoreData q s
  ∧ currentOffset (loadMoreData q s) = currentOffset s + 20.
Proof.
  apply (loadMore_advances_once (settled Samples.firstPage) (settled Samples.firstPage)
           (setIsLoadingMore false (setSkipQuery true Samples.afterFirstPage))).
  discriminate.
Defined.

(** X9: a retry after a failed fetch does not ask again for the offset
    that failed.  When the fetch at the current offset fails and
    [handleRetryLoadMore] is called in a render with no request in flight,
    with more to load and the initial load over, the offset moves on by
    20, the gate opens and the error is cleared. *)
Theorem retry_after_failure_moves_to_next_offset (q q' : Query) (s : State) :
  queryError q = true →
  isFetching q' = false →
  hasMore (paginationState s) = true →
  isInitialLoading s = false →
  handleRetryLoadMore q' (queryErrorEffect q s)
  = {| allPokemon := allPokemon s; paginationState := paginationState s;
       currentOffset := currentOffset s + 20; skipQuery := false;
       isInitialLoading := false; error := None; isLoadingMore := true |}.
Proof.
  intros He Hf Hm Hi. unfold queryErrorEffect, handleRetryLoadMore, loadMoreBody.
  rewrite He. simpl. rewrite Hf, Hm. simpl. rewrite Hi. simpl.
  unfold setSkipQuery, setCurrentOffset, setIsLoadingMore, setError; simpl.
  by rewrite Hi.
Qed.

Lemma retry_after_failure_moves_to_next_offset_witness :
  handleRetryLoadMore (failed (Some Samples.firstPage) false)
    (queryErrorEffect (failed (Some Samples.firstPage) false) Samples.afterFirstPage)
  = {| allPokemon := allPokemon Samples.afterFirstPage;
       paginationState := paginationState Samples.afterFirstPage;
       currentOffset := currentOffset Samples.afterFirstPage + 20; skipQuery := false;
       isInitialLoading := false; error := None; isLoadingMore := true |}.
Proof.
  apply (retry_after_failure_moves_to_next_offset
           (failed (Some Samples.firstPage) false) (failed (Some Samples.firstPage) false)
           Samples.afterFirstPage); reflexivity.
Defined.

(** X10: a page whose [next] is [null] ends the loading.  After it has
    settled, in the hook or in the page, [loadMoreData] changes nothing
    and [handleRetryLoadMore] only clears the error, in every later
    render. *)
Theorem last_page_stops_loading
    (q q' : Query) (p : Api.PokemonListResponse) (now : Z) (w : World) :
  data q = Some p → isFetching q = false → queryError q = false →
  Api.next p = None →
  let stopped (s' : State) :=
    hasMore (paginationState s') = false
    ∧ loadMoreData q' s' = s'
    ∧ handleRetryLoadMore q' s' = setError None s' in
  stopped (UsePokemonList.queryResultEffect q now w).1
  ∧ stopped (Home.queryResultEffect q now w).1.
Proof.
  intros Hd Hf He Hnext stopped. subst stopped. destruct w as [s st].
  rewrite (settled_query q p Hd Hf He).
  assert (Hhook : hasMore (paginationState
                    (UsePokemonList.queryResultEffect (settled p) now (s, st)).1) = false).
  { unfold UsePokemonList.queryResultEffect, settled; simpl.
    destruct (currentOffset s =? 0); simpl; by rewrite Hnext. }
  assert (Hhome : hasMore (paginationState
                    (Home.queryResultEffect (settled p) now (s, st)).1) = false).
  { unfold Home.queryResultEffect, settled; simpl.
    destruct (currentOffset s =? 0); simpl; by rewrite Hnext. }
  split; (split_and!; [done | |]; apply loadMore_blocked; auto).
Qed.

Lemma last_page_stops_loading_witness :
  let p := Samples.pageOf None [Samples.venusaur] in
  let w := (Samples.afterFirstPage, Samples.roomy) in
  let stopped (s' : State) :=
    hasMore (paginationState s') = false
    ∧ loadMoreData (settled p) s' = s'
    ∧ handleRetryLoadMore (settled p) s' = setError None s' in
  stopped (UsePokemonList.queryResultEffect (settled p) 2000 w).1
  ∧ stopped (Home.queryResultEffect (settled p) 2000 w).1.
Proof.
  apply (last_page_stops_loading
           (settled (Samples.pageOf None [Samples.venusaur]))
           (settled (Samples.pageOf None [Samples.venusaur]))
           (Samples.pageOf None [Samples.venusaur]) 2000
           (Samples.afterFirstPage, Samples.roomy)); reflexivity.
Defined.

(** ** What holds all along a session *)

Import Session.

Lemma aligned_next (s : State) (o : Z) :
  aligned s → o = currentOffset s + 20 → 0 ≤ o ∧ (ITEMS_PER_PAGE | o).
Proof.
  unfold aligned, ITEMS_PER_PAGE. intros [H0 [k Hk]] ->. split; [lia|].
  exists (k + 1). lia.
Qed.

Lemma loadMoreBody_keeps (q : Query) (s : State) (e : option string) :
  let s' := loadMoreBody q s (setError e s) in
  allPokemon s' = allPokemon s ∧ paginationState s' = paginationState s
  ∧ isInitialLoading s' = isInitialLoading s
  ∧ (currentOffset s' = currentOffset s ∨ currentOffset s' = currentOffset s + 20).
Proof.
  unfold loadMoreBody. destruct (_ && _); simpl; auto.
Qed.

Lemma hook_step_keeps (w : World) (e : Event) :
  aligned w.1 ∧ counted w.1 ∧ isInitialLoading w.1 = false →
  let w' := step UsePokemonList.queryResultEffect w e in
  aligned w'.1 ∧ counted w'.1 ∧ isInitialLoading w'.1 = false.
Proof.
  destruct w as [s st]. simpl. intros (Ha & Hc & Hi).
  destruct e as [q now | q | q | | q]; cbn [step fst snd].
  - destruct (settled_or_not q) as [[p ->] | Hn].
    + destruct (hook_settled_world p now s st) as [Hs _]. cbv zeta in Hs.
      set (s' := (UsePokemonList.queryResultEffect (settled p) now (s, st)).1) in *.
      rewrite Hs. unfold aligned, counted.
      cbn [currentOffset paginationState totalLoaded allPokemon isInitialLoading].
      split_and!; try done; apply Ha.
    + destruct (unsettled_effects q now (s, st) Hn) as [-> _]. done.
  - unfold queryErrorEffect. by destruct (queryError q).
  - destruct (loadMoreBody_keeps q s (error s)) as (Hl & Hp & Hil & Ho).
    assert (setError (error s) s = s) as Hs by by destruct s.
    rewrite Hs in Hl, Hp, Hil, Ho. fold (loadMoreData q s) in Hl, Hp, Hil, Ho.
    split; [|split; [unfold counted; by rewrite Hl, Hp | by rewrite Hil]].
    unfold aligned. destruct Ho as [-> | Ho]; [done | by eapply aligned_next].
  - split; [|done]. split; [done | by exists 0].
  - destruct (loadMoreBody_keeps q s None) as (Hl & Hp & Hil & Ho).
    fold (handleRetryLoadMore q s) in Hl, Hp, Hil, Ho.
    split; [|split; [unfold counted; by rewrite Hl, Hp | by rewrite Hil]].
    unfold aligned. destruct Ho as [-> | Ho]; [done | by eapply aligned_next].
Qed.

Lemma mount_establishes (now : Z) (st : Storage) :
  coherentCache st →
  let w := mountEffect now (initialState, st) in
  aligned w.1 ∧ counted w.1 ∧ isInitialLoading w.1 = false.
Proof.
  intros Hco.
  assert (Hfresh : aligned freshStart ∧ counted freshStart
                   ∧ isInitialLoading freshStart = false).
  { split; [split; [done | by exists 0] | done]. }
  unfold mountEffect.
  rewrite loadPokemonList_loadItem, loadPaginationState_loadItem.
  destruct (loadItem POKEMON_KEY st) as [jl|] eqn:Hl;
    destruct (loadItem POKEMON_PAGINATION_KEY st) as [jp|] eqn:Hp;
    try exact Hfresh.
  - destruct (Hco jl jp Hl Hp) as (l & p & Hjl & Hjp & Hpage & Htotal).
    simpl. rewrite Hjl, Hjp.
    destruct (_ <? _); [|exact Hfresh].
    split; [|done]. unfold aligned, ITEMS_PER_PAGE. simpl.
    split; [lia | by exists (currentPage p)].
  - simpl. by destruct (asPokemonList jl).
Qed.

(** X11: in the hook, after a mount over a store of which a load returns
    [undefined], or of which both loads return values of the declared
    types with a page number from 0 to 2^32 and a [totalLoaded] that is
    the length of the list, whatever effects and callbacks run and in
    whatever order, the offset is [20 * k] for a [k] from 0 on, so that
    every request asks for 20 items at such an offset, [totalLoaded] is
    the length of the list, and [isInitialLoading] stays [false]. *)
Theorem session_keeps_offsets_aligned_and_list_counted
    (now : Z) (st : Storage) (es : list Event) :
  coherentCache st →
  let s := (run UsePokemonList.queryResultEffect (mountEffect now (initialState, st)) es).1 in
  (∃ k, 0 ≤ k ∧ queryArgs s = (20 * k, 20))
  ∧ totalLoaded (paginationState s) = Z.of_nat (length (allPokemon s))
  ∧ isInitialLoading s = false.
Proof.
  intros Hco s.
  assert (Hinv : aligned s ∧ counted s ∧ isInitialLoading s = false).
  { subst s. unfold run.
    generalize (mount_establishes now st Hco). cbv zeta.
    generalize (mountEffect now (initialState, st)).
    induction es as [|e es IH]; intros w Hw; simpl; [done|].
    apply IH. by apply hook_step_keeps. }
  destruct Hinv as ([H0 [k Hk]] & Hc & Hi). split_and!; [|done|done].
  exists k. unfold queryArgs, ITEMS_PER_PAGE in *. split; [lia|]. f_equal. lia.
Qed.

Lemma firstPageCache_coherent : coherentCache Samples.firstPageCache.
Proof.
  intros jl jp Hl Hp. vm_compute in Hl, Hp.
  injection Hl as <-. injection Hp as <-.
  exists [Samples.cached 1 "bulbasaur"; Samples.cached 2 "ivysaur"], Samples.firstPageState.
  split_and!; [by vm_compute | by vm_compute | done | by vm_compute | done].
Qed.

Lemma session_keeps_offsets_aligned_and_list_counted_witness :
  let es := [LoadMore (settled Samples.firstPage);
             QueryResult (settled Samples.overlappingPage) 3000;
             QueryErrored (failed None false); Refresh] in
  let s := (run UsePokemonList.queryResultEffect
              (mountEffect 2000 (initialState, Samples.firstPageCache)) es).1 in
  (∃ k, 0 ≤ k ∧ queryArgs s = (20 * k, 20))
  ∧ totalLoaded (paginationState s) = Z.of_nat (length (allPokemon s))
  ∧ isInitialLoading s = false.
Proof.
  apply (session_keeps_offsets_aligned_and_list_counted 2000 Samples.firstPageCache
           [LoadMore (settled Samples.firstPage);
            QueryResult (settled Samples.overlappingPage) 3000;
            QueryErrored (failed None false); Refresh]).
  apply firstPageCache_coherent.
Defined.

Lemma step_keeps_NoDup (effect : Query → Z → World → World) (w : World) (e : Event) :
  merges_like_the_hook effect →
  (∀ q now w0, data q = None ∨ isFetching q = true ∨ queryError q = true →
               effect q now w0 = w0) →
  NoDup (ids (allPokemon w.1)) →
  (∀ p, delivered e = Some p → NoDup (ids (pageItems p))) →
  NoDup (ids (allPokemon (step effect w e).1)).
Proof.
  intros Hmerge Hskip Hw Hpage. destruct w as [s st]. simpl in Hw.
  destruct e as [q now | q | q | | q]; cbn [step fst snd].
  - destruct (settled_or_not q) as [[p ->] | Hn].
    + rewrite Hmerge. destruct (currentOffset s =? 0); [by apply Hpage|].
      apply append_unseen_NoDup; [done | by apply Hpage].
    + by rewrite Hskip.
  - by destruct (callbacks_keep_the_list q s st) as (_ & _ & -> & _).
  - by destruct (callbacks_keep_the_list q s st) as (-> & _).
  - constructor.
  - by destruct (callbacks_keep_the_list q s st) as (_ & -> & _).
Qed.

(** X12: no effect and no callback brings a duplicate id.  From a list
    without duplicates, whatever effects and callbacks run and in whatever
    order, in the hook or in the page, the list has no two entries with
    one id, provided no delivered page has two items with one id. *)
Theorem session_keeps_ids_apart (w : World) (es : list Event) :
  NoDup (ids (allPokemon w.1)) →
  Forall (fun e => ∀ p, delivered e = Some p → NoDup (ids (pageItems p))) es →
  NoDup (ids (allPokemon (run UsePokemonList.queryResultEffect w es).1))
  ∧ NoDup (ids (allPokemon (run Home.queryResultEffect w es).1)).
Proof.
  intros Hw Hes.
  assert (H : ∀ effect, merges_like_the_hook effect →
            (∀ q now w0, data q = None ∨ isFetching q = true ∨ queryError q = true →
                         effect q now w0 = w0) →
            NoDup (ids (allPokemon (run effect w es).1))).
  { intros effect Hmerge Hskip. unfold run. revert w Hw.
    induction Hes as [|e es He _ IH]; intros w Hw; simpl; [done|].
    apply IH. by apply step_keeps_NoDup. }
  split; apply H.
  - intros ? ? ? ?. apply hook_settled_list.
  - intros q now w0 Hn. by destruct (unsettled_effects q now w0 Hn).
  - intros ? ? ? ?. apply home_settled_list.
  - intros q now w0 Hn. by destruct (unsettled_effects q now w0 Hn).
Qed.

Lemma session_keeps_ids_apart_witness :
  let es := [QueryResult (settled Samples.overlappingPage) 3000; Refresh;
             QueryResult (settled Samples.firstPage) 4000;
             LoadMore (settled Samples.firstPage)] in
  let w := (Samples.afterFirstPage, Samples.roomy) in
  NoDup (ids (allPokemon (run UsePokemonList.queryResultEffect w es).1))
  ∧ NoDup (ids (allPokemon (run Home.queryResultEffect w es).1)).
Proof.
  apply (session_keeps_ids_apart (Samples.afterFirstPage, Samples.roomy)
           [QueryResult (settled Samples.overlappingPage) 3000; Refresh;
            QueryResult (settled Samples.firstPage) 4000;
            LoadMore (settled Samples.firstPage)]).
  - apply (bool_decide_unpack _). vm_compute. exact I.
  - repeat constructor; simpl; intros p Hp; try discriminate;
      injection Hp as <-; apply (bool_decide_unpack _); vm_compute; exact I.
Defined.

(** ** What the page shows *)

(** X13: what [Home] shows after a failed fetch, once the initial load is
    over.  With an empty list it shows the error page with the message
    [Failed to fetch Pokemon data]; with a list it shows the list as it
    was, with the alert for a failed load, and no error page. *)
Theorem page_after_failed_fetch (q q' : Query) (s : State) :
  queryError q = true →
  isInitialLoading s = false →
  let s1 := queryErrorEffect q s in
  (allPokemon s = [] →
     Page.render q' s1 = Page.ErrorPage "Failed to fetch Pokemon data")
  ∧ (allPokemon s ≠ [] →
     Page.render q' s1
     = Page.ListPage (allPokemon s) (length (allPokemon s) - 1) (isFetching q') true
         (negb (hasMore (paginationState s)))).
Proof.
  intros He Hi s1. subst s1. unfold queryErrorEffect, Page.render. rewrite He. simpl.
  rewrite Hi. split.
  - by intros ->.
  - intros Hne. destruct (allPokemon s) as [|x l]; [done|]. simpl.
    unfold Page.dividersOf. change (0 <? S (length l))%nat with true.
    by rewrite andb_true_r.
Qed.

Lemma page_after_failed_fetch_witness :
  let q := failed (Some Samples.firstPage) false in
  let s1 := queryErrorEffect q Samples.afterFirstPage in
  (allPokemon Samples.afterFirstPage = [] →
     Page.render q s1 = Page.ErrorPage "Failed to fetch Pokemon data")
  ∧ (allPokemon Samples.afterFirstPage ≠ [] →
     Page.render q s1
     = Page.ListPage (allPokemon Samples.afterFirstPage)
         (length (allPokemon Samples.afterFirstPage) - 1) (isFetching q) true
         (negb (hasMore (paginationState Samples.afterFirstPage)))).
Proof.
  apply (page_after_failed_fetch (failed (Some Samples.firstPage) false)
           (failed (Some Samples.firstPage) false) Samples.afterFirstPage);
    reflexivity.
Defined.

Lemma step_keeps_isInitialLoading (w : World) (e : Event) :
  isInitialLoading (step UsePokemonList.queryResultEffect w e).1 = isInitialLoading w.1.
Proof.
  destruct w as [s st]. destruct e as [q now | q | q | | q]; cbn [step fst snd].
  - destruct (settled_or_not q) as [[p ->] | Hn].
    + destruct (hook_settled_world p now s st) as [Hs _]. cbv zeta in Hs.
      by rewrite Hs.
    + by destruct (unsettled_effects q now (s, st) Hn) as [-> _].
  - unfold queryErrorEffect. by destruct (queryError q).
  - unfold loadMoreData, loadMoreBody. by destruct (_ && _).
  - done.
  - unfold handleRetryLoadMore, loadMoreBody. by destruct (_ && _).
Qed.

(** X14: the skeleton is what [Home] shows before the mount effect and
    never after it.  Whatever the store holds and whatever runs after the
    mount, the page shows the error page or the list; right after a mount
    without a fresh cache it shows an empty list, with the spinner while
    the first request is in flight. *)
Theorem skeleton_only_before_mount
    (q : Query) (now : Z) (st : Storage) (es : list Event) :
  Page.render q initialState = Page.Skeleton
  ∧ Page.render q (run UsePokemonList.queryResultEffect
                     (mountEffect now (initialState, st)) es).1 ≠ Page.Skeleton
  ∧ Page.render q freshStart = Page.ListPage [] 0 (isFetching q) false false.
Proof.
  split_and!; [done | | done].
  assert (Hi : isInitialLoading
                 (run UsePokemonList.queryResultEffect
                    (mountEffect now (initialState, st)) es).1 = false).
  { unfold run.
    assert (Hm : isInitialLoading (mountEffect now (initialState, st)).1 = false).
    { unfold mountEffect. destruct (loadPokemonList st), (loadPaginationState st);
        try done. by destruct (_ <? _). }
    revert Hm. generalize (mountEffect now (initialState, st)).
    induction es as [|e es IH]; intros w Hw; simpl; [done|].
    apply IH. by rewrite step_keeps_isInitialLoading. }
  unfold Page.render. rewrite Hi. by destruct (_ && _).
Qed.

(** ** Ids in paths and urls *)

Import Details.

Lemma integerText_nonempty (z : Z) : JSON.integerText z ≠ EmptyString.
Proof.
  destruct (integerText_start z EmptyString) as (c & t & Ht & _).
  intros Hz. rewrite Hz in Ht. discriminate.
Qed.

(** What a template literal shows for an integer past 2^53: the fewest
    digits that give the number back, followed by zeros up to 21 digits
    and by an exponent from there on. *)
Example template_literal_samples :
  numberToString (Num 25) = "25"
  ∧ numberToString (Num (- 7)) = "-7"
  ∧ numberToString (Num (2 ^ 60)) = "1152921504606847000"
  ∧ numberToString (Num (2 ^ 70)) = "1.1805916207174113e+21"
  ∧ numberToString (Num (- 10 ^ 22)) = "-1e+22"
  ∧ numberToString (Infinity false) = "Infinity"
  ∧ numberToString NaN = "NaN".
Proof. split_and!; by vm_compute. Qed.

(** Up to 2^53 a template literal shows an integer by its digits. *)
Lemma numberToString_integerText (n : Z) :
  Z.abs n ≤ 2 ^ 53 → numberToString (Num n) = JSON.integerText n.
Proof.
  intros Hn. destruct (decide (Z.abs n = 2 ^ 53)) as [He | Hne].
  - destruct (Z.abs_spec n) as [[_ Ha] | [_ Ha]]; rewrite Ha in He.
    + subst n. by vm_compute.
    + replace n with (- 2 ^ 53) by lia. by vm_compute.
  - unfold numberToString, JSON.positiveIntegerToString.
    destruct n as [|q|q]; [done | |].
    + change (Z.pos q <? 0) with false. cbv iota.
      by destruct (Z.ltb_spec (Z.pos q) (2 ^ 53)); [|lia].
    + change (Z.neg q <? 0) with true. cbv iota.
      change (- Z.neg q) with (Z.pos q).
      by destruct (Z.ltb_spec (Z.pos q) (2 ^ 53)); [|lia].
Qed.

(** X15: the details page reads back the id that the list item put in the
    path.  For every integer [n] up to 2^53, [parseInt] of what follows
    [/pokemon/] in the path of the item [n] is [n]; without a route
    parameter, or with an empty one, the id is 1; the text that the
    list item writes for [NaN] reads back as [NaN]; and the path of the
    item 10^21, which ends in [1e+21], reads back as 1. *)
Theorem details_page_reads_the_id_of_the_path (n : Z) :
  Z.abs n ≤ 2 ^ 53 →
  pokemonId (JSON.stripPrefix "/pokemon/" (detailsPath (Num n))) = Num n
  ∧ pokemonId (Some (numberToString (Num n))) = Num n
  ∧ pokemonId None = Num 1
  ∧ pokemonId (Some EmptyString) = Num 1
  ∧ pokemonId (Some (numberToString NaN)) = NaN
  ∧ detailsPath (Num (10 ^ 21)) = "/pokemon/1e+21"
  ∧ pokemonId (JSON.stripPrefix "/pokemon/" (detailsPath (Num (10 ^ 21)))) = Num 1.
Proof.
  intros Hn.
  assert (H : pokemonId (Some (numberToString (Num n))) = Num n).
  { rewrite numberToString_integerText by done. unfold pokemonId.
    pose proof (integerText_nonempty n) as Hne.
    destruct (JSON.integerText n) eqn:E; [done|].
    rewrite <- E, parseInt_integerText. by apply toNumber_exact. }
  split_and!; [| done | reflexivity | reflexivity | reflexivity
               | by vm_compute | by vm_compute].
  unfold detailsPath. rewrite !append_cons, append_nil. exact H.
Qed.

(** X15 at the item 25. *)
Lemma details_page_reads_the_id_of_the_path_witness :
  pokemonId (JSON.stripPrefix "/pokemon/" (detailsPath (Num 25))) = Num 25
  ∧ pokemonId (Some (numberToString (Num 25))) = Num 25
  ∧ pokemonId None = Num 1
  ∧ pokemonId (Some EmptyString) = Num 1
  ∧ pokemonId (Some (numberToString NaN)) = NaN
  ∧ detailsPath (Num (10 ^ 21)) = "/pokemon/1e+21"
  ∧ pokemonId (JSON.stripPrefix "/pokemon/" (detailsPath (Num (10 ^ 21)))) = Num 1.
Proof.
  apply (details_page_reads_the_id_of_the_path 25). vm_compute. discriminate.
Defined.

Lemma append_empty (a : string) : a +:+ EmptyString = a.
Proof. induction a as [|c a IH]; [done|]. by rewrite append_cons, IH. Qed.

(** X16: the url under which [getPokemonDetails] asks for the pokemon [n]
    is a url from which the list reads the id [n]: for every integer [n]
    up to 2^53 and after any base url, the path [/pokemon/n/] parses to
    [n].  The path for 10^21 is [/pokemon/1e+21/], which parses to 1. *)
Theorem details_path_parses_to_its_id (nm base : string) (n : Z) :
  Z.abs n ≤ 2 ^ 53 →
  toCachedPokemon
    {| Api.name := nm; Api.url := base +:+ getPokemonDetailsPath (Num n) |}
  = {| id := Num n; name := nm |}
  ∧ toCachedPokemon
      {| Api.name := nm;
         Api.url := "https://pokeapi.co/api/v2" +:+ getPokemonDetailsPath (Num (10 ^ 21)) |}
    = {| id := Num 1; name := nm |}.
Proof.
  intros Hn. split; [|by vm_compute].
  unfold getPokemonDetailsPath. rewrite numberToString_integerText by done.
  rewrite <- (toCachedPokemon_well_formed nm (base +:+ "/pokemon") n)
    by (by apply toNumber_exact).
  do 2 f_equal.
  rewrite !append_assoc, !append_cons, !append_nil. reflexivity.
Qed.

(** X16 at the pokemon 25. *)
Lemma details_path_parses_to_its_id_witness :
  toCachedPokemon
    {| Api.name := "pikachu";
       Api.url := "https://pokeapi.co/api/v2" +:+ getPokemonDetailsPath (Num 25) |}
  = {| id := Num 25; name := "pikachu" |}
  ∧ toCachedPokemon
      {| Api.name := "pikachu";
         Api.url := "https://pokeapi.co/api/v2" +:+ getPokemonDetailsPath (Num (10 ^ 21)) |}
    = {| id := Num 1; name := "pikachu" |}.
Proof.
  apply (details_path_parses_to_its_id "pikachu" "https://pokeapi.co/api/v2" 25).
  vm_compute. discriminate.
Defined.

(** The second-to-last part of [base/seg/last] is [seg]. *)
Lemma second_to_last_of_three (base seg last : string) :
  occurs "/" seg = false → occurs "/" last = false →
  let parts := split "/" (base +:+ String "/" (seg +:+ String "/" last)) in
  index parts (Z.of_nat (length parts) - 2) = Some seg.
Proof.
  intros Hseg Hlast parts. subst parts.
  rewrite !split_append, (split_without_separator "/" seg),
    (split_without_separator "/" last) by done.
  rewrite length_app. simpl length. unfold index.
  destruct (Z.ltb_spec (Z.of_nat (length (split "/" base) + 2) - 2) 0); [lia|].
  replace (Z.to_nat (Z.of_nat (length (split "/" base) + 2) - 2))
    with (length (split "/" base) + 0)%nat by lia.
  by rewrite lookup_app_r, Nat.add_comm, Nat.add_sub by lia.
Qed.

Lemma parseInt_pokemon : parseInt (Some "pokemon") = NaN.
Proof. reflexivity. Qed.

(** X17: the id of an item comes from the part before the last slash of
    its url, whatever follows that slash.  For a url [base/seg/last] it is
    [parseInt] of [seg]; so a url [base/pokemon/n] that lacks the closing
    slash gives [NaN], and so does a url without any slash. *)
Theorem id_comes_from_second_to_last_part (nm base seg last : string) (n : Z) :
  occurs "/" seg = false → occurs "/" last = false →
  id (toCachedPokemon
        {| Api.name := nm; Api.url := base +:+ String "/" (seg +:+ String "/" last) |})
  = parseInt (Some seg)
  ∧ id (toCachedPokemon
          {| Api.name := nm; Api.url := base +:+ "/pokemon/" +:+ JSON.integerText n |})
    = NaN
  ∧ id (toCachedPokemon {| Api.name := nm; Api.url := seg |}) = NaN.
Proof.
  intros Hseg Hlast. unfold toCachedPokemon. simpl Api.url. simpl id.
  split_and!.
  - by rewrite second_to_last_of_three.
  - replace (base +:+ "/pokemon/" +:+ JSON.integerText n)
      with (base +:+ String "/" ("pokemon" +:+ String "/" (JSON.integerText n)))
      by (by rewrite !append_cons, !append_nil).
    rewrite second_to_last_of_three; [done | done | apply occurs_integerText].
  - by rewrite split_without_separator.
Qed.

Lemma id_comes_from_second_to_last_part_witness :
  id (toCachedPokemon
        {| Api.name := "pikachu";
           Api.url := "https://pokeapi.co/api/v2/pokemon" +:+ String "/" ("25" +:+ String "/" "?x=1") |})
  = parseInt (Some "25")
  ∧ id (toCachedPokemon
          {| Api.name := "pikachu";
             Api.url := "https://pokeapi.co/api/v2" +:+ "/pokemon/" +:+ JSON.integerText 25 |})
    = NaN
  ∧ id (toCachedPokemon {| Api.name := "pikachu"; Api.url := "25" |}) = NaN.
Proof.
  apply (id_comes_from_second_to_last_part "pikachu" "https://pokeapi.co/api/v2/pokemon"
           "25" "?x=1" 25); reflexivity.
Defined.

(** ** What [Home.tsx] counts *)

Lemma filter_split_length {A} (P : A → Prop) `{∀ x, Decision (P x)} (l : list A) :
  (length l = length (filter P l) + length (filter (fun x => ¬ P x) l))%nat.
Proof.
  induction l as [|x l IH]; [done|].
  rewrite !filter_cons. destruct (decide (P x)) as [HP | HP].
  - rewrite decide_False by tauto. simpl. lia.
  - rewrite decide_True by done. simpl. lia.
Qed.

(** X18: above offset 0, [Home.tsx] counts in [totalLoaded] the items of
    the list and, once more, every item of the page whose id the list
    held already: [totalLoaded] is the length of the new list plus the
    number of such items, and it is that length exactly when the page
    brings no id that the list holds. *)
Theorem home_counts_repeated_items
    (q : Query) (p : Api.PokemonListResponse) (now : Z) (s : State) (st : Storage) :
  data q = Some p → isFetching q = false → queryError q = false →
  currentOffset s ≠ 0 →
  let s' := (Home.queryResultEffect q now (s, st)).1 in
  let repeated := filter (fun x => id x ∈ ids (allPokemon s)) (pageItems p) in
  totalLoaded (paginationState s')
  = Z.of_nat (length (allPokemon s')) + Z.of_nat (length repeated)
  ∧ (totalLoaded (paginationState s') = Z.of_nat (length (allPokemon s'))
     ↔ ∀ x, x ∈ pageItems p → id x ∉ ids (allPokemon s)).
Proof.
  intros Hd Hf He Hoff s' repeated.
  assert (Hs : totalLoaded (paginationState s')
               = Z.of_nat (length (allPokemon s)) + Z.of_nat (length (pageItems p))
             ∧ allPokemon s' = allPokemon s ++ unseen (allPokemon s) (pageItems p)).
  { subst s'. rewrite (settled_query q p Hd Hf He).
    unfold Home.queryResultEffect, settled; simpl.
    destruct (Z.eqb_spec (currentOffset s) 0); [done|]. simpl.
    by rewrite unseen_existingIds. }
  destruct Hs as [Ht Hl].
  assert (Hlen : length (pageItems p)
                 = (length repeated + length (unseen (allPokemon s) (pageItems p)))%nat).
  { subst repeated. unfold unseen.
    apply (filter_split_length (fun x => id x ∈ ids (allPokemon s))). }
  assert (Hsum : totalLoaded (paginationState s')
                 = Z.of_nat (length (allPokemon s')) + Z.of_nat (length repeated)).
  { rewrite Ht, Hl, length_app, Hlen. lia. }
  split; [done|]. rewrite Hsum. split.
  - intros Hz x Hx Hin.
    assert (Hnil : repeated = []) by (apply length_zero_iff_nil; lia).
    assert (Hrep : x ∈ repeated) by (by apply list_elem_of_filter).
    rewrite Hnil in Hrep. by apply elem_of_nil in Hrep.
  - intros Hnone.
    assert (Hnil : repeated = []).
    { apply elem_of_nil_inv. intros x [Hin Hx]%list_elem_of_filter.
      by apply (Hnone x). }
    rewrite Hnil. simpl. lia.
Qed.

Lemma home_counts_repeated_items_witness :
  let s' := (Home.queryResultEffect (settled Samples.overlappingPage) 2000
               (Samples.afterFirstPage, Samples.roomy)).1 in
  let repeated := filter (fun x => id x ∈ ids (allPokemon Samples.afterFirstPage))
                    (pageItems Samples.overlappingPage) in
  totalLoaded (paginationState s')
  = Z.of_nat (length (allPokemon s')) + Z.of_nat (length repeated)
  ∧ (totalLoaded (paginationState s') = Z.of_nat (length (allPokemon s'))
     ↔ ∀ x, x ∈ pageItems Samples.overlappingPage →
            id x ∉ ids (allPokemon Samples.afterFirstPage)).
Proof.
  apply (home_counts_repeated_items (settled Samples.overlappingPage)
           Samples.overlappingPage 2000 Samples.afterFirstPage Samples.roomy);
    [reflexivity | reflexivity | reflexivity | discriminate].
Defined.

(** ** The observers of [useInfiniteScroll] *)

Section Observers.
Context {Element Callback : Type}.
Implicit Types (h : InfiniteScroll.Hook Element Callback).
Import InfiniteScroll.

Lemma disconnect_lookup (obs : list (option Element)) (i j : nat) (t : Element) :
  disconnect i obs !! j = Some (Some t) → obs !! j = Some (Some t) ∧ i ≠ j.
Proof.
  unfold disconnect. intros H. destruct (decide (i = j)) as [-> | Hne].
  - destruct (decide (j < length obs)%nat) as [Hlt | Hge].
    + by rewrite list_lookup_insert_eq in H.
    + rewrite list_insert_ge in H by lia. apply lookup_lt_Some in H. lia.
  - by rewrite list_lookup_insert_ne in H.
Qed.

Lemma cleanup_noObserver h : oneObserver h → noObserver (cleanup h).
Proof.
  intros Hone i t H. unfold cleanup in H. simpl in H.
  destruct (observerRef h) as [j|] eqn:Hj.
  - apply disconnect_lookup in H as [H Hne].
    destruct (Hone i t H) as [Href _]. congruence.
  - destruct (Hone i t H) as [Href _]. congruence.
Qed.

Lemma unmount_noObserver h : oneObserver h → noObserver (unmount h).
Proof.
  intros Hone. unfold unmount. destruct (cleanupPending h) eqn:Hp.
  - by apply cleanup_noObserver.
  - intros i t H. destruct (Hone i t H) as [_ Hc]. congruence.
Qed.

Lemma effectBody_oneObserver h : noObserver h → oneObserver (effectBody h).
Proof.
  intros Hno. unfold effectBody. destruct (targetRef h) as [target|].
  - intros i t H. simpl in *. split; [|done]. f_equal.
    set (obs := match observerRef h with
                | Some j => disconnect j (observers h)
                | None => observers h
                end) in *.
    destruct (decide (i < length obs)%nat) as [Hlt | Hge].
    + rewrite lookup_app_l in H by done. exfalso. subst obs.
      destruct (observerRef h).
      * apply disconnect_lookup in H as [H _]. by apply (Hno i t).
      * by apply (Hno i t).
    + apply lookup_lt_Some in H. rewrite length_app in H. simpl in H. lia.
  - intros i t H. by destruct (Hno i t).
Qed.

Lemma step_oneObserver h (e : Step Element Callback) :
  oneObserver h → oneObserver (step h e).
Proof.
  intros Hone. destruct e as [f | t | |]; simpl.
  - exact Hone.
  - exact Hone.
  - apply effectBody_oneObserver. by apply unmount_noObserver.
  - intros i t H. by destruct (unmount_noObserver h Hone i t).
Qed.

Lemma steps_oneObserver (es : list (Step Element Callback)) :
  oneObserver (foldl step initial es).
Proof.
  assert (H0 : oneObserver (initial (Element := Element) (Callback := Callback))).
  { intros i t H. simpl in H. by rewrite lookup_nil in H. }
  revert H0. generalize (initial (Element := Element) (Callback := Callback)).
  induction es as [|e es IH]; intros h Hh; simpl; [done|].
  apply IH. by apply step_oneObserver.
Qed.

Lemma steps_onIntersectRef h (es : list (Step Element Callback)) :
  onIntersectRef (foldl step h es)
  = foldl (fun last e => match e with Render f => Some f | _ => last end)
      (onIntersectRef h) es.
Proof.
  revert h. induction es as [|e es IH]; intros h; simpl; [done|].
  rewrite IH. f_equal. destruct e as [f | t | |]; simpl; try done.
  - unfold rerun, effectBody.
    assert (Hc : onIntersectRef (if cleanupPending h then cleanup h else h)
                 = onIntersectRef h) by (by destruct (cleanupPending h)).
    by destruct (targetRef _).
  - unfold unmount. by destruct (cleanupPending h).
Qed.

End Observers.

(** X19: the hook never has two observers at work, leaves none behind,
    and calls the callback of the latest render.  Whatever renders,
    bindings of the element, runs of the effect and unmounts happen, and
    in whatever order: an observer that observes an element is the one in
    [observerRef]; after an unmount no observer observes anything;
    [onIntersectRef] holds the callback that the last render passed; a
    run of the effect with the element bound leaves the observer of
    [observerRef] observing that element, and when this observer reports
    an intersection the callback of the last render is called; and an
    observer that calls back is the one in [observerRef], reports an
    intersection, and calls the callback of the last render. *)
Theorem one_observer_at_a_time {Element Callback : Type}
    (es : list (InfiniteScroll.Step Element Callback)) :
  let h := foldl InfiniteScroll.step InfiniteScroll.initial es in
  (∀ i t, InfiniteScroll.observers h !! i = Some (Some t) →
          InfiniteScroll.observerRef h = Some i)
  ∧ (∀ i t, InfiniteScroll.observers (InfiniteScroll.unmount h) !! i ≠ Some (Some t))
  ∧ InfiniteScroll.onIntersectRef h = InfiniteScroll.lastRender es
  ∧ (∀ t, InfiniteScroll.targetRef h = Some t →
          ∃ i, InfiniteScroll.observerRef (InfiniteScroll.rerun h) = Some i
               ∧ InfiniteScroll.observers (InfiniteScroll.rerun h) !! i = Some (Some t)
               ∧ InfiniteScroll.notify i true (InfiniteScroll.rerun h)
                 = InfiniteScroll.lastRender es)
  ∧ (∀ i b f, InfiniteScroll.notify i b h = Some f →
              InfiniteScroll.observerRef h = Some i ∧ b = true
              ∧ InfiniteScroll.lastRender es = Some f).
Proof.
  intros h. pose proof (steps_oneObserver es) as Hone. fold h in Hone.
  assert (Hlast : InfiniteScroll.onIntersectRef h = InfiniteScroll.lastRender es).
  { subst h. by rewrite steps_onIntersectRef. }
  split_and!.
  - intros i t H. by destruct (Hone i t H).
  - by apply unmount_noObserver.
  - exact Hlast.
  - intros t Ht. rewrite <- Hlast.
    unfold InfiniteScroll.notify, InfiniteScroll.rerun, InfiniteScroll.effectBody.
    assert (Hk : InfiniteScroll.targetRef
                   (if InfiniteScroll.cleanupPending h
                    then InfiniteScroll.cleanup h else h) = Some t).
    { by destruct (InfiniteScroll.cleanupPending h). }
    assert (Hf : InfiniteScroll.onIntersectRef
                   (if InfiniteScroll.cleanupPending h
                    then InfiniteScroll.cleanup h else h)
                 = InfiniteScroll.onIntersectRef h).
    { by destruct (InfiniteScroll.cleanupPending h). }
    rewrite Hk. simpl. eexists. split; [done|].
    rewrite lookup_app_r by done. rewrite Nat.sub_diag. simpl. by rewrite Hf.
  - intros i b f H. unfold InfiniteScroll.notify in H.
    destruct (InfiniteScroll.observers h !! i) as [[t|]|] eqn:Hi; try done.
    destruct (Hone i t Hi) as [Href _]. rewrite <- Hlast. by destruct b.
Qed.

(** ** An id that is not an integer, through the cache *)

(** X21: whatever list is saved, when the store takes the write the load
    returns it item for item, in its order and with its names; the id of
    an item is back as it was when it is an integer, and it is [null] when
    it was [NaN] or an infinity, for which [JSON.stringify] writes
    [null].  So the loaded list never holds the id [NaN], and an item
    saved with the id [NaN] is not found again under that id. *)
Theorem saved_list_loads_with_null_ids (l : list CachedPokemon) (st : Storage) :
  accepts st POKEMON_KEY (pokemonListText l) →
  ∃ l',
    loadPokemonList (savePokemonList l st) = Some l'
    ∧ name <$> l' = name <$> l
    ∧ (∀ i p, l !! i = Some p →
              ∃ p', l' !! i = Some p'
                    ∧ (isInteger (id p) = true → id p' = id p)
                    ∧ (isInteger (id p) = false → id p' = Null))
    ∧ NaN ∉ ids l'.
Proof.
  intros Hacc. exists (Parsed.stored <$> l). split_and!.
  - by rewrite (loadPokemonList_stored _ l) by (by apply getItem_savePokemonList).
  - rewrite <- list_fmap_compose. by apply list_fmap_ext.
  - intros i p Hi. exists (Parsed.stored p). rewrite list_lookup_fmap, Hi.
    split_and!; [done | |]; by destruct p as [[|z|b|] nm].
  - unfold ids. rewrite <- list_fmap_compose. intros Hin.
    apply list_elem_of_fmap in Hin as (p & Hp & _).
    by destruct p as [[|z|b|] nm].
Qed.

(** X21 at a list whose first item has the id [NaN]. *)
Lemma saved_list_loads_with_null_ids_witness :
  let l := [{| id := NaN; name := "missingno" |}; Samples.cached 1 "bulbasaur"] in
  ∃ l',
    loadPokemonList (savePokemonList l Samples.roomy) = Some l'
    ∧ name <$> l' = name <$> l
    ∧ (∀ i p, l !! i = Some p →
              ∃ p', l' !! i = Some p'
                    ∧ (isInteger (id p) = true → id p' = id p)
                    ∧ (isInteger (id p) = false → id p' = Null))
    ∧ NaN ∉ ids l'.
Proof.
  apply (saved_list_loads_with_null_ids
           [{| id := NaN; name := "missingno" |}; Samples.cached 1 "bulbasaur"]
           Samples.roomy).
  split; [reflexivity | apply Nat.leb_le; vm_compute; reflexivity].
Defined.

(** The cache that the hook leaves after a page with a malformed url is
    restored, within five minutes, with the id [null] in place of [NaN];
    past five minutes it is cleared. *)
Example malformed_url_through_the_cache :
  let page := Samples.pageOf Samples.nextUrl
                [Samples.resource "missingno" "about:blank"; Samples.bulbasaur] in
  let w := UsePokemonList.queryResultEffect (settled page) 1000
             (freshStart, Samples.roomy) in
  allPokemon w.1 = [{| id := NaN; name := "missingno" |}; Samples.cached 1 "bulbasaur"]
  ∧ allPokemon (mountEffect 2000 (initialState, w.2)).1
    = [{| id := Null; name := "missingno" |}; Samples.cached 1 "bulbasaur"]
  ∧ skipQuery (mountEffect 2000 (initialState, w.2)).1 = true
  ∧ mountEffect (1000 + 5 * 60 * 1000) (initialState, w.2)
    = (freshStart, clearPokemonData w.2).
Proof. vm_compute. split_and!; reflexivity. Qed.
